(** * fitness-tracker: a shallow embedding of the query layer, the server
    actions, the chat route and the chat component, with the properties
    the specification states about them.

    Conventions of the embedding.
    - A JavaScript string is the list of its UTF-16 code units ([jsstring]).
      String literals of the source are written [js "..."].
    - A [Date] is its time value (milliseconds since the epoch, UTC) or
      Invalid Date; the local time zone gives the offset of local time
      from UTC at every instant, and an integer stands for the zone whose
      offset is always that many milliseconds.
    - A database table with a primary key [id] is a finite map from the
      identifier to the remaining columns of the row.
    - The Supabase client, the Groq client and the platform functions
      ([String.prototype.split], [RegExp], [Date], [TextEncoder], ...) are
      not code of the repository; they are embedded from their
      documentation, next to the functions of the repository that call
      them. *)

From Stdlib Require Import ZArith NArith List String Ascii Lia.
From stdpp Require Import base option list gmap strings pretty sorting.

Local Open Scope N_scope.

(* ===================================================================== *)
(** * JavaScript strings *)
(* ===================================================================== *)

Module JsString.

(** A string value is a sequence of UTF-16 code units. *)
Abbreviation jsstring := (list N).

Definition js (s : string) : jsstring :=
  map N_of_ascii (list_ascii_of_string s).

(** [WhiteSpace] and [LineTerminator] of ECMAScript: the characters that
    [\s] matches and that [String.prototype.trim] strips. *)
Definition is_space (c : N) : bool :=
  (c =? 9) || (c =? 10) || (c =? 11) || (c =? 12) || (c =? 13) ||
  (c =? 32) || (c =? 160) || (c =? 5760) ||
  ((8192 <=? c) && (c <=? 8202)) ||
  (c =? 8232) || (c =? 8233) || (c =? 8239) || (c =? 8287) ||
  (c =? 12288) || (c =? 65279).

(** [\d]: the ten ASCII digits. *)
Definition is_digit (c : N) : bool := (48 <=? c) && (c <=? 57).

Fixpoint drop_while (p : N -> bool) (s : jsstring) : jsstring :=
  match s with
  | [] => []
  | c :: s' => if p c then drop_while p s' else s
  end.

Fixpoint take_while (p : N -> bool) (s : jsstring) : jsstring :=
  match s with
  | [] => []
  | c :: s' => if p c then c :: take_while p s' else []
  end.

(** [String.prototype.trim]. *)
Definition trim (s : jsstring) : jsstring :=
  rev (drop_while is_space (rev (drop_while is_space s))).

(** A JavaScript number as far as this program computes with it: NaN, an
    integer, an infinity, or another finite number. The program only ever
    prints a number that is not an integer, so it is kept as its text. *)
Inductive number :=
  | NaN
  | Int (z : Z)
  | Infinity (negative : bool)
  | Other (text : jsstring).

(** [Number::toString], that is [`${n}`]; an integer is written in plain
    decimal digits (below 10^21 in absolute value). *)
Definition Number_toString (n : number) : jsstring :=
  match n with
  | NaN => js "NaN"
  | Int z => js (pretty z)
  | Infinity false => js "Infinity"
  | Infinity true => js "-Infinity"
  | Other text => text
  end.

(** A double holds 53 bits of an integer: [round53 z] is [(q, k)] where
    [q * 2^k] is the value of that kind nearest to [z], the one with [q]
    even of two that are equally near. Below 2^53 in absolute value that
    is [z] itself. *)
Definition round53 (z : Z) : Z * Z :=
  let a := Z.abs z in
  if (a <? 2 ^ 53)%Z then (z, 0%Z)
  else
    let k := (Z.log2 a - 52)%Z in
    let q := (a / 2 ^ k)%Z in
    let r := (a mod 2 ^ k)%Z in
    let q' :=
      if (2 ^ k <? 2 * r)%Z || ((2 * r =? 2 ^ k)%Z && Z.odd q)
      then (q + 1)%Z else q in
    ((Z.sgn z * q')%Z, k).

(** The Number value for a mathematical integer: the double nearest to
    it, an infinity from 2^1024 on. *)
Definition to_number (z : Z) : number :=
  let '(q, k) := round53 z in
  if (2 ^ 1024 <=? Z.abs q * 2 ^ k)%Z then Infinity (z <? 0)%Z
  else Int (q * 2 ^ k)%Z.

Definition digit_value (c : N) : Z := Z.of_N (c - 48).

Definition digits_value (ds : jsstring) : Z :=
  fold_left (fun v c => (10 * v + digit_value c)%Z) ds 0%Z.

(** [parseInt(s)] with no radix: leading white space is skipped, an
    optional sign is read, then the longest run of decimal digits; NaN when
    there is none. (The hexadecimal prefix [0x] is not embedded: every
    argument the program passes is a run of decimal digits.) The result
    is the Number value of the integer the digits write; the engines
    round the exact integer, where the standard would also let them drop
    the digits after the twentieth. *)
Definition parseInt (s : jsstring) : number :=
  let s1 := drop_while is_space s in
  let '(neg, s2) :=
    match s1 with
    | 45 :: t => (true, t)
    | 43 :: t => (false, t)
    | _ => (false, s1)
    end in
  match take_while is_digit s2 with
  | [] => NaN
  | ds => to_number (if neg then - digits_value ds else digits_value ds)%Z
  end.

(** Truthiness of a string: the empty string is falsy. *)
Definition truthy (s : jsstring) : bool :=
  match s with [] => false | _ => true end.

End JsString.

Export JsString.

(* ===================================================================== *)
(** * Regular expressions *)
(* ===================================================================== *)

Module RegExp.

(** The patterns of the program are sequences of single-character terms,
    possibly quantified, with one capture group. *)
Inductive cclass :=
  | Lit (c : N)        (* a literal character *)
  | NotLit (c : N)     (* [^c] *)
  | Space              (* \s *)
  | Digit.             (* \d *)

Inductive item :=
  | One (k : cclass)
  | Opt (k : cclass)   (* k? *)
  | Star (k : cclass)  (* k* *)
  | Plus (k : cclass)  (* k+ *)
  | Open               (* ( *)
  | Close.             (* ) *)

Record regex := { items : list item; ignoreCase : bool }.

(** [Canonicalize] of a non-unicode, ignore-case pattern, on the ASCII
    range: lower-case letters map to upper case. A code unit from 128 on
    never canonicalizes into the ASCII range, so for the ASCII literals of
    the patterns below comparing canonical forms on the ASCII range is
    exact. *)
Definition canonicalize (c : N) : N :=
  if (97 <=? c) && (c <=? 122) then c - 32 else c.

Definition mem (ic : bool) (k : cclass) (c : N) : bool :=
  match k with
  | Lit x => if ic then canonicalize c =? canonicalize x else c =? x
  | NotLit x => negb (if ic then canonicalize c =? canonicalize x else c =? x)
  | Space => is_space c
  | Digit => is_digit c
  end.

(** while the group is open the characters consumed are recorded *)
Definition record (recording : bool) (c : N) (acc : list N) : list N :=
  if recording then c :: acc else acc.

(** The backtracking matcher, anchored at the start of [s]. Quantifiers
    are greedy: the longer alternative is tried first, the shorter one when
    the rest of the pattern fails. The result is the text of the capture
    group and the input left after the match. *)
Fixpoint run (ic : bool) (r : list item) (s : jsstring)
    (recording : bool) (acc : list N) {struct r}
    : option (jsstring * jsstring) :=
  match r with
  | [] => Some (rev acc, s)
  | One k :: r' =>
      match s with
      | c :: s' =>
          if mem ic k c then run ic r' s' recording (record recording c acc)
          else None
      | [] => None
      end
  | Opt k :: r' =>
      match s with
      | c :: s' =>
          if mem ic k c then
            match run ic r' s' recording (record recording c acc) with
            | Some x => Some x
            | None => run ic r' s recording acc
            end
          else run ic r' s recording acc
      | [] => run ic r' s recording acc
      end
  | Star k :: r' =>
      (fix star (s : jsstring) (acc : list N) {struct s} :=
         match s with
         | c :: s' =>
             if mem ic k c then
               match star s' (record recording c acc) with
               | Some x => Some x
               | None => run ic r' s recording acc
               end
             else run ic r' s recording acc
         | [] => run ic r' s recording acc
         end) s acc
  | Plus k :: r' =>
      match s with
      | c :: s' =>
          if mem ic k c then
            (fix star (s : jsstring) (acc : list N) {struct s} :=
               match s with
               | c :: s' =>
                   if mem ic k c then
                     match star s' (record recording c acc) with
                     | Some x => Some x
                     | None => run ic r' s recording acc
                     end
                   else run ic r' s recording acc
               | [] => run ic r' s recording acc
               end) s' (record recording c acc)
          else None
      | [] => None
      end
  | Open :: r' => run ic r' s true []
  | Close :: r' => run ic r' s false acc
  end.

Definition match_at (re : regex) (s : jsstring) : option (jsstring * jsstring) :=
  run (ignoreCase re) (items re) s false [].

(** [String.prototype.match] with a non-global pattern: the leftmost
    match; the program reads only element 1 of the result, the text of the
    capture group. *)
Fixpoint exec (re : regex) (s : jsstring) : option jsstring :=
  match match_at re s with
  | Some (g, _) => Some g
  | None =>
      match s with
      | [] => None
      | _ :: s' => exec re s'
      end
  end.

(** [String.prototype.split] with a pattern that has one capture group
    (the loop of [RegExp.prototype[Symbol.split]]): the text before each
    match and the text of the group alternate; [skip] counts the characters
    of the current match still to pass over, [acc] holds the text since the
    end of the last match. An empty match directly after the last split
    point does not split. *)
Fixpoint split_from (re : regex) (s : jsstring) (skip : nat) (acc : list N)
    : list jsstring :=
  match s with
  | [] => [rev acc]
  | c :: s' =>
      match skip with
      | S k => split_from re s' k acc
      | O =>
          match match_at re s with
          | Some (g, rest) =>
              if (length rest <? length s)%nat then
                rev acc :: g :: split_from re s' (length s - length rest - 1) []
              else
                match acc with
                | [] => split_from re s' 0 [c]
                | _ => rev acc :: g :: split_from re s' 0 [c]
                end
          | None => split_from re s' 0 (c :: acc)
          end
      end
  end.

Definition split (re : regex) (s : jsstring) : list jsstring :=
  match s with
  | [] => match match_at re [] with Some _ => [] | None => [[]] end
  | _ => split_from re s 0 []
  end.

End RegExp.

Export RegExp.

(* ===================================================================== *)
(** * TextEncoder and TextDecoder (UTF-8) *)
(* ===================================================================== *)

Module TextCodec.

Abbreviation bytes := (list N).

Definition is_high_surrogate (c : N) : bool := (55296 <=? c) && (c <=? 56319).
Definition is_low_surrogate (c : N) : bool := (56320 <=? c) && (c <=? 57343).

(** the UTF-8 bytes of one scalar value *)
Definition encode_code_point (cp : N) : bytes :=
  if cp <? 128 then [cp]
  else if cp <? 2048 then [192 + cp / 64; 128 + cp mod 64]
  else if cp <? 65536 then
    [224 + cp / 4096; 128 + (cp / 64) mod 64; 128 + cp mod 64]
  else
    [240 + cp / 262144; 128 + (cp / 4096) mod 64;
     128 + (cp / 64) mod 64; 128 + cp mod 64].

Definition REPLACEMENT : bytes := [239; 191; 189].

(** [new TextEncoder().encode(s)]: a surrogate pair is one scalar value, a
    lone surrogate is encoded as U+FFFD. *)
Fixpoint encode (s : jsstring) : bytes :=
  match s with
  | [] => []
  | c :: s' =>
      if is_high_surrogate c then
        match s' with
        | d :: s'' =>
            if is_low_surrogate d then
              encode_code_point (65536 + (c - 55296) * 1024 + (d - 56320))
                ++ encode s''
            else REPLACEMENT ++ encode s'
        | [] => REPLACEMENT
        end
      else if is_low_surrogate c then REPLACEMENT ++ encode s'
      else encode_code_point c ++ encode s'
  end.

(** The state of the UTF-8 decoder of the Encoding standard. *)
Record decoder_state := {
  code_point : N;
  bytes_needed : N;
  bytes_seen : N;
  lower_boundary : N;
  upper_boundary : N
}.

Definition initial_state : decoder_state :=
  {| code_point := 0; bytes_needed := 0; bytes_seen := 0;
     lower_boundary := 128; upper_boundary := 191 |}.

Definition lead (cp needed lo hi : N) : decoder_state :=
  {| code_point := cp; bytes_needed := needed; bytes_seen := 0;
     lower_boundary := lo; upper_boundary := hi |}.

(** a byte read while no sequence is open *)
Definition first_byte (b : N) : decoder_state * list N :=
  if b <=? 127 then (initial_state, [b])
  else if (194 <=? b) && (b <=? 223) then (lead (b mod 32) 1 128 191, [])
  else if (224 <=? b) && (b <=? 239) then
    (lead (b mod 16) 2 (if b =? 224 then 160 else 128)
          (if b =? 237 then 159 else 191), [])
  else if (240 <=? b) && (b <=? 244) then
    (lead (b mod 8) 3 (if b =? 240 then 144 else 128)
          (if b =? 244 then 143 else 191), [])
  else (initial_state, [65533]).

(** one byte: the new state and the code points emitted *)
Definition feed (st : decoder_state) (b : N) : decoder_state * list N :=
  if bytes_needed st =? 0 then first_byte b
  else if (lower_boundary st <=? b) && (b <=? upper_boundary st) then
    let cp := code_point st * 64 + b mod 64 in
    if bytes_seen st + 1 =? bytes_needed st then (initial_state, [cp])
    else ({| code_point := cp; bytes_needed := bytes_needed st;
             bytes_seen := bytes_seen st + 1;
             lower_boundary := 128; upper_boundary := 191 |}, [])
  else
    (* the open sequence is ill-formed: U+FFFD, and the byte is read again *)
    let '(st', out) := first_byte b in (st', 65533 :: out).

Fixpoint decode_from (st : decoder_state) (bs : bytes) : list N :=
  match bs with
  | [] => if bytes_needed st =? 0 then [] else [65533]
  | b :: bs' => let '(st', out) := feed st b in out ++ decode_from st' bs'
  end.

(** a code point as UTF-16 code units *)
Definition code_units (cp : N) : jsstring :=
  if cp <? 65536 then [cp]
  else [55296 + (cp - 65536) / 1024; 56320 + (cp - 65536) mod 1024].

(** [new TextDecoder().decode(value)], called without [{stream: true}]:
    every call decodes its argument on its own, from the initial state,
    flushes an open sequence as U+FFFD at the end, and drops a leading
    byte order mark. *)
Definition decode (bs : bytes) : jsstring :=
  let cps := decode_from initial_state bs in
  let cps' := match cps with 65279 :: t => t | _ => cps end in
  concat (map code_units cps').

End TextCodec.

Export TextCodec.

(* ===================================================================== *)
(** * The chat component *)
(* ===================================================================== *)

Module AiChat.

Definition lits (s : string) : list item := map (fun c => One (Lit c)) (js s).

(** [/\*\*([^*]+)\*\*/] *)
Definition BOLD : regex :=
  {| items := lits "**" ++ [Open; Plus (NotLit 42); Close] ++ lits "**";
     ignoreCase := false |}.

(** [/Sets?:\s*(\d+)/i] *)
Definition SETS : regex :=
  {| items := lits "Set" ++ [Opt (Lit 115)] ++ lits ":" ++
             [Star Space; Open; Plus Digit; Close];
     ignoreCase := true |}.

(** [/Reps?:\s*(\d+)/i] *)
Definition REPS : regex :=
  {| items := lits "Rep" ++ [Opt (Lit 115)] ++ lits ":" ++
             [Star Space; Open; Plus Digit; Close];
     ignoreCase := true |}.

(** [/Weight:\s*(\d+)/i] *)
Definition WEIGHT : regex :=
  {| items := lits "Weight:" ++ [Star Space; Open; Plus Digit; Close];
     ignoreCase := true |}.

Record Exercise := {
  exercise : jsstring;
  sets : number;
  reps : number;
  weight : number
}.

(** One turn of the [for] loop body: the value pushed, if any.
    [exerciseName] is [sections[i]?.trim()], [details] is
    [sections[i + 1] || '']. *)
Definition loop_body (sections : list jsstring) (i : nat) : option Exercise :=
  let exerciseName := trim <$> (sections !! i) in
  let details := default [] (sections !! (i + 1)%nat) in
  let setsMatch := exec SETS details in
  let repsMatch := exec REPS details in
  let weightMatch := exec WEIGHT details in
  match exerciseName, setsMatch, repsMatch, weightMatch with
  | Some name, Some s, Some r, Some w =>
      if truthy name then
        Some {| exercise := name;
                sets := parseInt s;
                reps := parseInt r;
                weight := parseInt w |}
      else None
  | _, _, _, _ => None
  end.

(** [for (let i = 1; i < sections.length; i += 2) { ... }], with
    [exercises] the array the loop pushes to. The loop runs while its test
    holds; [fuel] bounds the number of turns. *)
Fixpoint parse_loop (fuel : nat) (sections : list jsstring) (i : nat)
    (exercises : list Exercise) : list Exercise :=
  match fuel with
  | O => exercises
  | S fuel' =>
      if (i <? length sections)%nat then
        let exercises' :=
          match loop_body sections i with
          | Some e => exercises ++ [e]
          | None => exercises
          end in
        parse_loop fuel' sections (i + 2) exercises'
      else exercises
  end.

Definition parseExercisesFromMessage (content : jsstring) : list Exercise :=
  let sections := split BOLD content in
  parse_loop (length sections) sections 1 [].

(** ** The extractor in the words of the specification *)

(** The alternating sequence, read as blocks: each bold name with the
    plain segment that follows it (empty when there is none). *)
Fixpoint blocks (l : list jsstring) : list (jsstring * jsstring) :=
  match l with
  | [] => []
  | name :: l' =>
      match l' with
      | [] => [(name, [])]
      | details :: rest => (name, details) :: blocks rest
      end
  end.

(** The first integer after a label. *)
Definition first_int (label : regex) (details : jsstring) : option number :=
  parseInt <$> exec label details.

(** A block gives a suggestion when its name is not blank and all three
    integers are found. *)
Definition suggestion (b : jsstring * jsstring) : option Exercise :=
  let name := trim b.1 in
  match first_int SETS b.2, first_int REPS b.2, first_int WEIGHT b.2 with
  | Some s, Some r, Some w =>
      if truthy name then
        Some {| exercise := name; sets := s; reps := r; weight := w |}
      else None
  | _, _, _ => None
  end.

Definition extract_suggestions (content : jsstring) : list Exercise :=
  omap suggestion (blocks (drop 1 (split BOLD content))).

(** Reassembling an alternating sequence: plain, [**name**], plain, ... *)
Fixpoint unsplit (l : list jsstring) : jsstring :=
  match l with
  | [] => []
  | plain :: l' =>
      plain ++
      match l' with
      | [] => []
      | name :: rest => js "**" ++ name ++ js "**" ++ unsplit rest
      end
  end.

(** ** Sending a message and reading the streamed answer *)

Inductive Role := user | assistant.

Record ChatMessage := {
  id : string;
  role : Role;
  content : jsstring
}.

Record ChatState := {
  messages : list ChatMessage;
  input : jsstring;
  isLoading : bool
}.

(** What [reader.read()] resolves to, call after call. *)
Inductive read_result :=
  | ReadValue (value : bytes)   (* { done: false, value } *)
  | ReadDone                    (* { done: true } *)
  | ReadRejected.               (* the promise rejects *)

(** What [fetch] resolves to: it rejects, or gives a response with its
    [ok] flag and, when there is a body, the results its reader gives. *)
Inductive fetch_result :=
  | FetchRejected
  | FetchResponse (ok : bool) (body : option (list read_result)).

(** [prev.map((msg) => msg.id === assistantId ? { ...msg, content: f(msg.content) } : msg)] *)
Definition update_content (assistantId : string) (f : jsstring -> jsstring)
    (prev : list ChatMessage) : list ChatMessage :=
  map (fun msg =>
         if String.eqb (id msg) assistantId
         then {| id := id msg; role := role msg; content := f (content msg) |}
         else msg) prev.

Inductive loop_end :=
  | Finished    (* [done]: the loop is left by [break] *)
  | Failed      (* [read] rejected: control goes to [catch] *)
  | Waiting.    (* the results so far are used up: [await] is pending *)

(** [while (true) { const { done, value } = await reader.read(); ... }] *)
Fixpoint read_loop (assistantId : string) (reads : list read_result)
    (msgs : list ChatMessage) : list ChatMessage * loop_end :=
  match reads with
  | [] => (msgs, Waiting)
  | ReadDone :: _ => (msgs, Finished)
  | ReadRejected :: _ => (msgs, Failed)
  | ReadValue value :: reads' =>
      let text := decode value in
      read_loop assistantId reads'
        (update_content assistantId (fun c => c ++ text) msgs)
  end.

Definition APOLOGY : jsstring :=
  js "Sorry, I encountered an error. Please try again.".

(** [handleSubmit]; [now1] and [now2] are the two readings of
    [Date.now()], [response] is what [fetch] and the reader deliver. The
    request sent is not part of the state. *)
Definition handleSubmit (now1 now2 : Z) (response : fetch_result)
    (st : ChatState) : ChatState :=
  if negb (truthy (trim (input st))) || isLoading st then st
  else
    let userMessage :=
      {| id := pretty now1; role := user; content := trim (input st) |} in
    let msgs1 := messages st ++ [userMessage] in
    let assistantId := pretty (now2 + 1)%Z in
    let msgs2 :=
      msgs1 ++ [{| id := assistantId; role := assistant; content := [] |}] in
    let on_error (msgs : list ChatMessage) :=
      update_content assistantId (fun _ => APOLOGY) msgs in
    match response with
    | FetchRejected =>
        {| messages := on_error msgs2; input := []; isLoading := false |}
    | FetchResponse false _ =>
        {| messages := on_error msgs2; input := []; isLoading := false |}
    | FetchResponse true None =>
        {| messages := msgs2; input := []; isLoading := false |}
    | FetchResponse true (Some reads) =>
        match read_loop assistantId reads msgs2 with
        | (msgs, Finished) =>
            {| messages := msgs; input := []; isLoading := false |}
        | (msgs, Failed) =>
            {| messages := on_error msgs; input := []; isLoading := false |}
        | (msgs, Waiting) =>
            {| messages := msgs; input := []; isLoading := true |}
        end
    end.

End AiChat.

Export AiChat.

(* ===================================================================== *)
(** * Dates *)
(* ===================================================================== *)

Module JsDate.

Local Open Scope Z_scope.

Definition msPerDay : Z := 86400000.
Definition maxTime : Z := 8640000000000000.

(** A [Date] object: its time value, or [None] for Invalid Date. *)
Abbreviation Date := (option Z).

Definition TimeClip (t : Z) : Date :=
  if Z.abs t <=? maxTime then Some t else None.

Definition Day (t : Z) : Z := t / msPerDay.
Definition TimeWithinDay (t : Z) : Z := t mod msPerDay.
Definition WeekDay (t : Z) : Z := (Day t + 4) mod 7.

Definition MakeTime (h m s ms : Z) : Z :=
  h * 3600000 + m * 60000 + s * 1000 + ms.
Definition MakeDate (day time : Z) : Z := day * msPerDay + time.

(** The civil date (year, month 1..12, day of month) of a day number, in
    the proleptic Gregorian calendar ([YearFromTime], [MonthFromTime],
    [DateFromTime]). *)
Definition civil_from_days (days : Z) : Z * Z * Z :=
  let z := days + 719468 in
  let era := z / 146097 in
  let doe := z - era * 146097 in
  let yoe := (doe - doe / 1460 + doe / 36524 - doe / 146096) / 365 in
  let doy := doe - (365 * yoe + yoe / 4 - yoe / 100) in
  let mp := (5 * doy + 2) / 153 in
  let d := doy - (153 * mp + 2) / 5 + 1 in
  let m := if mp <? 10 then mp + 3 else mp - 9 in
  let y := yoe + era * 400 + (if m <=? 2 then 1 else 0) in
  (y, m, d).

Definition MonthFromTime (t : Z) : Z := (civil_from_days (Day t)).1.2.
Definition DateFromTime (t : Z) : Z := (civil_from_days (Day t)).2.

(** ** Numbers in date arithmetic *)

(** A number as the methods of [Date] compute with it: NaN, an infinity,
    or a finite double, given by its value [m * 2^e] (of a double [m] has
    53 bits at most and [e] is -1074 at least). An integer stands for the
    double of that value. *)
Inductive double :=
  | DNaN
  | DInfinity (negative : bool)
  | Dyadic (m e : Z).

Definition of_Z (z : Z) : double := Dyadic z 0.
Coercion of_Z : Z >-> double.

(** the double nearest to [m * 2^e] *)
Definition round_double (m e : Z) : double :=
  let '(q, k) := round53 m in
  if 2 ^ 1024 <=? Z.abs q * 2 ^ (k + e) then DInfinity (m <? 0)
  else Dyadic q (k + e).

(** [d - x] for an integer [d] that a double holds exactly *)
Definition sub_from (d : Z) (x : double) : double :=
  match x with
  | DNaN => DNaN
  | DInfinity negative => DInfinity (negb negative)
  | Dyadic m e =>
      if 0 <=? e then round_double (d - m * 2 ^ e) 0
      else round_double (d * 2 ^ (- e) - m) e
  end.

(** [ToIntegerOrInfinity] as [MakeDay] applies it to the day of the
    month: the integer part of a finite number, towards zero; [None]
    stands for NaN and the infinities, of which [MakeDay] makes NaN. *)
Definition ToIntegerOrInfinity (x : double) : option Z :=
  match x with
  | Dyadic m e => Some (if 0 <=? e then m * 2 ^ e else Z.quot m (2 ^ (- e)))
  | _ => None
  end.

(** ** The local time zone *)

(** The offset of local time from UTC, in milliseconds (positive east of
    Greenwich): [offset_at t] at the instant [t] ([LocalTZA(t, true)]) and
    [offset_of_local t] for the local time value [t] ([LocalTZA(t,
    false)]; a local time that a change of offset skips or repeats is read
    with the offset before the change). *)
Record Zone := { offset_at : Z -> Z; offset_of_local : Z -> Z }.

(** the zone whose offset is always [tz] *)
Definition fixed (tz : Z) : Zone :=
  {| offset_at := fun _ => tz; offset_of_local := fun _ => tz |}.
Coercion fixed : Z >-> Zone.

Section Zone.

Variable tz : Zone.

Definition LocalTime (t : Z) : Z := t + offset_at tz t.
Definition UTC (t : Z) : Z := t - offset_of_local tz t.

(** [getDay()], [getDate()]: NaN ([None]) on an invalid date *)
Definition getDay (d : Date) : option Z := (fun t => WeekDay (LocalTime t)) <$> d.
Definition getDate (d : Date) : option Z := (fun t => DateFromTime (LocalTime t)) <$> d.

(** [d.setDate(dt)]: the day of the month is replaced in local time and
    the time within the day kept; [MakeDay(year, month, dt)] is the day
    number of the first of the month plus [dt - 1], that is the day of [d]
    moved by [dt - getDate()]; [dt] is the integer part of the argument.
    An argument that is not finite ([None]) or an invalid date gives an
    invalid date. *)
Definition setDate (d : Date) (dt : option Z) : Date :=
  match d, dt with
  | Some t, Some dt =>
      let t' := LocalTime t in
      let day := Day t' - DateFromTime t' + dt in
      TimeClip (UTC (MakeDate day (TimeWithinDay t')))
  | _, _ => None
  end.

(** [d.setHours(h, m, s, ms)] *)
Definition setHours (d : Date) (h m s ms : Z) : Date :=
  match d with
  | Some t =>
      TimeClip (UTC (MakeDate (Day (LocalTime t)) (MakeTime h m s ms)))
  | None => None
  end.

End Zone.

(** [d.toISOString()] denotes the instant in UTC; it throws a RangeError
    ([None]) on an invalid date. The text is represented by the instant it
    denotes. *)
Definition toISOString (d : Date) : option Z := d.

(** [d.toISOString().split('T')[0]]: the calendar date in UTC, represented
    by its day number (days since 1970-01-01). *)
Definition toISOString_date (d : Date) : option Z := Day <$> toISOString d.

Definition number_sub (a : option Z) (b : Z) : option Z := (fun x => x - b) <$> a.
Definition number_add (a : option Z) (b : Z) : option Z := (fun x => x + b) <$> a.

(** [a - days] as [setDate] reads it, for [a] the result of [getDate()]
    and [days] any number *)
Definition day_minus (a : option Z) (days : double) : option Z :=
  a ≫= fun d => ToIntegerOrInfinity (sub_from d days).

End JsDate.

Export JsDate.

(** an optional argument is read at the type the function expects: an
    integer given for [days] is the double of that value *)
Arguments Some {A} & a.

(* ===================================================================== *)
(** * The store: tables, queries and server actions *)
(* ===================================================================== *)

Module Store.

Local Open Scope Z_scope.

(** The columns of a [workouts] row besides its [id]. [created_at] is the
    instant of insertion in milliseconds since the epoch; a finer
    resolution of the column does not change the comparisons made. *)
Record WorkoutRow := {
  exercise : jsstring;
  sets : number;
  reps : number;
  weight : number;
  notes : option jsstring;
  created_at : Z
}.

(** A row as a query returns it: the [id] with the other columns. *)
Abbreviation Workout := (string * WorkoutRow)%type.

(** A [gym_visits] row: [id] and [visited_date], a calendar date
    represented by its day number. *)
Abbreviation GymVisit := (string * Z)%type.

Record DB := {
  workouts : gmap string WorkoutRow;
  gym_visits : gmap string Z
}.

(** What a Supabase query resolves to: [{ data, error }]. *)
Record Response (A : Type) := {
  data : option A;
  error : option string
}.
Arguments data {A} _.
Arguments error {A} _.

(** How a function of the repository ends. *)
Inductive outcome (A : Type) :=
  | Returned (a : A)
  | Threw (message : string).
Arguments Returned {A} _.
Arguments Threw {A} _.

(** *** The query builder

    The store is embedded as it behaves while it accepts every request:
    the one error it reports is that of [single()], when the rows found
    are not exactly one. The [if (error) throw] of the callers is kept. *)

(** [.from('workouts').delete().eq('id', id)] *)
Definition delete_workouts_eq_id (id : string) (db : DB) : DB * Response unit :=
  ({| workouts := delete id (workouts db); gym_visits := gym_visits db |},
   {| data := None; error := None |}).

(** [.from('gym_visits').select('id').eq('visited_date', date).single()]:
    the one matching row; an error, and no data, when no row or more than
    one row matches. *)
Definition select_visit_id_single (date : Z) (db : DB) : Response string :=
  match map_to_list (filter (fun kv => kv.2 = date) (gym_visits db)) with
  | [(id, _)] => {| data := Some id; error := None |}
  | _ => {| data := None; error := Some "PGRST116"%string |}
  end.

(** [.from('gym_visits').delete().eq('id', id)] *)
Definition delete_visits_eq_id (id : string) (db : DB) : DB * Response unit :=
  ({| workouts := workouts db; gym_visits := delete id (gym_visits db) |},
   {| data := None; error := None |}).

(** descending order of [created_at] *)
Definition newer_first (a b : Workout) : Prop := created_at b.2 <= created_at a.2.

#[global] Instance newer_first_dec a b : Decision (newer_first a b).
Proof. unfold newer_first. apply _. Defined.

(** [.from('workouts').select('*').gte('created_at', since).order('created_at', { ascending: false })] *)
Definition select_workouts_since (since : Z) (db : DB) : Response (list Workout) :=
  {| data := Some (merge_sort newer_first
                     (filter (fun r : Workout => since <= created_at r.2)
                             (map_to_list (workouts db))));
     error := None |}.

(** [.from('gym_visits').select('*').gte('visited_date', lo).lte('visited_date', hi)] *)
Definition select_visits_between (lo hi : Z) (db : DB) : Response (list GymVisit) :=
  {| data := Some (filter (fun r : GymVisit => lo <= r.2 /\ r.2 <= hi)
                          (map_to_list (gym_visits db)));
     error := None |}.

(** *** queries.ts *)

(** [getRecentWorkouts(days = 14)] at the instant [now], in the zone [tz];
    [days] is [None] when the argument is left out. *)
Definition getRecentWorkouts (tz : Zone) (now : Z) (days : option double)
    (db : DB) : outcome (list Workout) :=
  let days := default (of_Z 14) days in
  let since := TimeClip now in
  let since := setDate tz since (day_minus (getDate tz since) days) in
  match toISOString since with
  | None => Threw "RangeError: Invalid time value"
  | Some iso =>
      let r := select_workouts_since iso db in
      match error r with
      | Some message => Threw message
      | None => Returned (default [] (data r))
      end
  end.

(** [getWeeklyGymVisits()] at the instant [now], in the zone [tz]. *)
Definition getWeeklyGymVisits (tz : Zone) (now : Z) (db : DB)
    : outcome (list GymVisit) :=
  let today := TimeClip now in
  let dayOfWeek := getDay tz today in
  let daysFromMonday :=
    (fun dow => if dow =? 0 then 6 else dow - 1) <$> dayOfWeek in
  let monday := today in
  let monday :=
    setDate tz monday
      (daysFromMonday ≫= fun k => number_sub (getDate tz today) k) in
  let monday := setHours tz monday 0 0 0 0 in
  let sunday := monday in
  let sunday := setDate tz sunday (number_add (getDate tz monday) 6) in
  let sunday := setHours tz sunday 23 59 59 999 in
  match toISOString_date monday, toISOString_date sunday with
  | Some lo, Some hi =>
      let r := select_visits_between lo hi db in
      match error r with
      | Some message => Threw message
      | None => Returned (default [] (data r))
      end
  | _, _ => Threw "RangeError: Invalid time value"
  end.

(** *** actions.ts *)

Section Actions.

(** The identifier the store gives a new row of [gym_visits]: one that no
    row of the table has. *)
Variable gen_id : gmap string Z -> string.

(** [.from('gym_visits').insert({ visited_date: date })] *)
Definition insert_visit (date : Z) (db : DB) : DB * Response unit :=
  ({| workouts := workouts db;
      gym_visits := <[gen_id (gym_visits db) := date]> (gym_visits db) |},
   {| data := None; error := None |}).

(** [deleteWorkout(id)]; [revalidatePath('/')] does not touch the store. *)
Definition deleteWorkout (id : string) (db : DB) : DB * outcome unit :=
  let '(db', r) := delete_workouts_eq_id id db in
  match error r with
  | Some message => (db', Threw message)
  | None => (db', Returned tt)
  end.

(** [toggleGymVisit(date)]; the error of the lookup is not read. *)
Definition toggleGymVisit (date : Z) (db : DB) : DB * outcome unit :=
  let existing := data (select_visit_id_single date db) in
  match existing with
  | Some id =>
      let '(db', r) := delete_visits_eq_id id db in
      match error r with
      | Some message => (db', Threw message)
      | None => (db', Returned tt)
      end
  | None =>
      let '(db', r) := insert_visit date db in
      match error r with
      | Some message => (db', Threw message)
      | None => (db', Returned tt)
      end
  end.

End Actions.

(** The visit set: the dates that have a row. *)
Definition visit_set (db : DB) : gset Z := map_img (gym_visits db).

(** the rows of a date *)
Definition rows_of (date : Z) (db : DB) : gmap string Z :=
  filter (fun kv => kv.2 = date) (gym_visits db).


End Store.

Export Store.

(* ===================================================================== *)
(** * The chat route *)
(* ===================================================================== *)

Module ChatRoute.

Local Open Scope Z_scope.

(** ** The workout context *)

Definition weekday_short (wd : Z) : jsstring :=
  js (nth (Z.to_nat wd) ["Sun"; "Mon"; "Tue"; "Wed"; "Thu"; "Fri"; "Sat"] "")%string.

Definition month_short (m : Z) : jsstring :=
  js (nth (Z.to_nat (m - 1))
        ["Jan"; "Feb"; "Mar"; "Apr"; "May"; "Jun";
         "Jul"; "Aug"; "Sep"; "Oct"; "Nov"; "Dec"] "")%string.

(** [d.toLocaleDateString('en-US', { weekday: 'short', month: 'short',
    day: 'numeric' })] in the zone [tz], as in [Wed, Jan 17]. *)
Definition toLocaleDateString (tz : Zone) (d : Date) : jsstring :=
  match d with
  | None => js "Invalid Date"
  | Some t =>
      let t' := LocalTime tz t in
      weekday_short (WeekDay t') ++ js ", " ++ month_short (MonthFromTime t')
        ++ js " " ++ js (pretty (DateFromTime t'))
  end.

Definition join (sep : jsstring) (l : list jsstring) : jsstring :=
  match l with
  | [] => []
  | x :: l' => x ++ concat (map (fun y => sep ++ y) l')
  end.

(** truthiness of [workout.notes], of type [string | null] *)
Definition notes_truthy (n : option jsstring) : bool :=
  match n with Some s => truthy s | None => false end.

(** the callback of [workouts.map] *)
Definition format_workout (tz : Zone) (workout : Workout) : jsstring :=
  let date := toLocaleDateString tz (TimeClip (created_at workout.2)) in
  let notesSection :=
    if notes_truthy (notes workout.2)
    then js " (" ++ default [] (notes workout.2) ++ js ")"
    else [] in
  js "- " ++ date ++ js ": " ++ Store.exercise workout.2 ++ js " - "
    ++ Number_toString (Store.sets workout.2) ++ js "x"
    ++ Number_toString (Store.reps workout.2) ++ js " @ "
    ++ Number_toString (Store.weight workout.2) ++ js "lbs" ++ notesSection.

Definition NO_RECENT : jsstring :=
  js "The user hasn't logged any workouts in the past 2 weeks.".

Definition formatWorkoutsForContext (tz : Zone) (workouts : list Workout)
    : jsstring :=
  if (length workouts =? 0)%nat then NO_RECENT
  else
    let formatted := map (format_workout tz) workouts in
    js "Recent workouts (last 2 weeks):" ++ [10%N] ++ join [10%N] formatted.

(** ** The request *)

#[warnings="-register-all"] Inductive json :=
  | JNull
  | JBool (b : bool)
  | JNumber (n : number)
  | JString (s : jsstring)
  | JArray (l : list json)
  | JObject (fields : list (jsstring * json)).

(** A JavaScript value read from the request: [None] is [undefined]. *)
Abbreviation value := (option json).

(** the property [key] of a value that is not null: of an object the
    field of that name (the last one when the text repeats it), of
    anything else [undefined] *)
Definition get (key : jsstring) (v : json) : value :=
  match v with
  | JObject fields =>
      snd <$> last (filter (fun kv => kv.1 = key) fields)
  | _ => None
  end.

Definition falsy (v : value) : bool :=
  match v with
  | None => true
  | Some JNull => true
  | Some (JBool b) => negb b
  | Some (JNumber NaN) => true
  | Some (JNumber (Int z)) => z =? 0
  | Some (JNumber (Infinity _)) => false
  | Some (JNumber (Other _)) => false
  | Some (JString s) => negb (truthy s)
  | Some (JArray _) => false
  | Some (JObject _) => false
  end.

(** [typeof v !== 'string'] *)
Definition not_string (v : value) : bool :=
  match v with Some (JString _) => false | _ => true end.

(** ** The model *)

Record ApiMessage := { role : value; content : value }.

Record Delta := { delta_content : option jsstring }.
Record Choice := { delta : option Delta }.
Record Chunk := { choices : list Choice }.

(** What the completion call gives: it throws, or it gives the pieces of
    the stream, in order, which then ends. *)
Abbreviation completion := (outcome (list Chunk)).

(** ** The response *)

(** The controller of the [ReadableStream]: the byte chunks enqueued so
    far, oldest first, and whether the stream was closed. *)
Record Controller := { queue : list bytes; closed : bool }.

Definition enqueue (b : bytes) (c : Controller) : Controller :=
  {| queue := queue c ++ [b]; closed := closed c |}.

Definition close (c : Controller) : Controller :=
  {| queue := queue c; closed := true |}.

(** [chunk.choices[0]?.delta?.content || ''] *)
Definition chunk_text (chunk : Chunk) : jsstring :=
  match head (choices chunk) with
  | Some {| delta := Some {| delta_content := Some text |} |} => text
  | _ => []
  end.

(** [for await (const chunk of stream) { ... }] *)
Fixpoint pump (stream : list Chunk) (controller : Controller) : Controller :=
  match stream with
  | [] => controller
  | chunk :: stream' =>
      let text := chunk_text chunk in
      pump stream'
        (if truthy text then enqueue (encode text) controller else controller)
  end.

(** the [start] callback of the stream *)
Definition start (stream : list Chunk) : Controller :=
  close (pump stream {| queue := []; closed := false |}).

Inductive Body :=
  | JsonBody (error : string)
  | StreamBody (readable : Controller).

Record HttpResponse := { status : Z; body : Body }.

(** What the handler does besides answering. *)
Inductive event :=
  | GetRecentWorkouts (days : Z)
  | CreateCompletion (model : string) (messages : list ApiMessage)
      (max_tokens : Z)
  | ConsoleError.

Section Handler.

Variable SYSTEM_PROMPT : jsstring.

(** [(history || []).map((msg) => ({ role: msg.role, content: msg.content }))];
    [None] stands for the TypeError of calling [map] on something that is
    not an array, or of reading a property of [null]. *)
Definition history_messages (history : value) : option (list ApiMessage) :=
  if falsy history then Some []
  else
    match history with
    | Some (JArray l) =>
        mapM (fun msg =>
                match msg with
                | JNull => None
                | _ => Some {| role := get (js "role") msg;
                               content := get (js "content") msg |}
                end) l
    | _ => None
    end.

Definition server_error : HttpResponse :=
  {| status := 500; body := JsonBody "Failed to generate response" |}.

(** [POST(req)]; [request] is what [req.json()] gives ([None] when it
    rejects), [groq] is the completion call, the store is read at the
    instant [now] in the zone [tz]. The result is the response and the
    events, in order. *)
Definition POST (tz : Zone) (now : Z) (db : DB)
    (groq : list ApiMessage -> completion) (request : option json)
    : HttpResponse * list event :=
  match request with
  | None => (server_error, [ConsoleError])
  | Some JNull => (server_error, [ConsoleError])
  | Some req =>
      let message := get (js "message") req in
      let history := get (js "history") req in
      if falsy message || not_string message then
        ({| status := 400; body := JsonBody "Message is required" |}, [])
      else
        match getRecentWorkouts tz now (Some 14) db with
        | Threw _ => (server_error, [GetRecentWorkouts 14; ConsoleError])
        | Returned recentWorkouts =>
            let workoutContext := formatWorkoutsForContext tz recentWorkouts in
            let systemPrompt := SYSTEM_PROMPT ++ [10%N; 10%N] ++ workoutContext in
            match history_messages history with
            | None => (server_error, [GetRecentWorkouts 14; ConsoleError])
            | Some previous =>
                let messages :=
                  [{| role := Some (JString (js "system"));
                      content := Some (JString systemPrompt) |}]
                  ++ previous ++
                  [{| role := Some (JString (js "user")); content := message |}] in
                let call :=
                  CreateCompletion "llama-3.3-70b-versatile" messages 1024 in
                match groq messages with
                | Threw _ =>
                    (server_error, [GetRecentWorkouts 14; call; ConsoleError])
                | Returned stream =>
                    ({| status := 200; body := StreamBody (start stream) |},
                     [GetRecentWorkouts 14; call])
                end
            end
        end
  end.

End Handler.

End ChatRoute.

Export ChatRoute.

(* ===================================================================== *)
(** * The vocabulary of the statements *)
(* ===================================================================== *)

(** ** Suggestion extraction *)

(** a bold name holds no asterisk *)
Definition star_free (s : jsstring) : Prop := Forall (fun c => c <> 42) s.

(** The search for an integer in the words of the specification: a
    label in any letter case, a colon, optional white space, then the
    integer, a run of digits. First the part after the colon: the digits
    and the text left. *)
Definition digits_after_spaces (s : jsstring) : option (jsstring * jsstring) :=
  match drop_while is_space s with
  | d :: s' =>
      if is_digit d then Some (d :: take_while is_digit s', drop_while is_digit s')
      else None
  | [] => None
  end.

(** [c] is the character [x] of a label in either letter case: [x]
    itself or, when [x] is one of the letters A to Z or a to z, the same
    letter in the other case *)
Definition same_letter (x c : N) : bool :=
  (c =? x) || ((65 <=? x) && (x <=? 90) && (c =? x + 32))
           || ((97 <=? x) && (x <=? 122) && (c + 32 =? x)).

(** [s] without the [label] it starts with, letter case apart *)
Fixpoint strip_ci (label s : jsstring) : option jsstring :=
  match label, s with
  | [], _ => Some s
  | x :: label', c :: s' =>
      if same_letter x c then strip_ci label' s' else None
  | _ :: _, [] => None
  end.

(** the integer after [label] and a colon at the start of [s] *)
Definition label_int (label s : jsstring) : option (jsstring * jsstring) :=
  strip_ci (label ++ [58]) s ≫= digits_after_spaces.

(** the integer after the first of the [labels] that is found at the
    start of [s] *)
Fixpoint at_labels (labels : list jsstring) (s : jsstring)
    : option (jsstring * jsstring) :=
  match labels with
  | [] => None
  | label :: labels' =>
      match label_int label s with
      | Some x => Some x
      | None => at_labels labels' s
      end
  end.

(** the first place of [s] where a label with its integer stands *)
Fixpoint find_first (labels : list jsstring) (s : jsstring) : option jsstring :=
  match at_labels labels s with
  | Some (g, _) => Some g
  | None =>
      match s with
      | [] => None
      | _ :: s' => find_first labels s'
      end
  end.

(** [\s*(\d+)], the end of the three label patterns *)
Definition int_tail : list item := [Star Space; Open; Plus Digit; Close].

Definition all_digits (g : jsstring) : Prop := Forall (fun c => is_digit c = true) g.

(** the texts of the examples *)
Definition squat_text : jsstring :=
  js "**Squat**" ++ [10] ++ js "Sets: 3" ++ [10] ++ js "Reps: 10" ++ [10]
    ++ js "Weight: 135 lbs".

Definition squat_text_no_reps : jsstring :=
  js "**Squat**" ++ [10] ++ js "Sets: 3" ++ [10] ++ js "Weight: 135 lbs".

(** the same block with its labels in other letter cases, on one line *)
Definition squat_text_other_case : jsstring :=
  js "**Squat** SETS: 3 reps: 10 wEiGhT: 135".

(** and with a label that is not one of the three *)
Definition squat_text_other_label : jsstring :=
  js "**Squat** Sets: 3 Reps: 10 Weigh: 135".

Definition squat : Exercise :=
  {| AiChat.exercise := js "Squat"; AiChat.sets := Int 3;
     AiChat.reps := Int 10; AiChat.weight := Int 135 |}.

Definition bench_text : jsstring :=
  js "**Bench Press**" ++ [10] ++ js "Sets: 3" ++ [10] ++ js "Reps: 10"
    ++ [10] ++ js "Weight: 135.5 lbs".

(** ** The store *)


(** a store that gives a new row the first identifier not in use *)
Definition fresh_id (m : gmap string Z) : string := fresh (dom m).

(** the day number of the Monday of the local week of [now] *)
Definition monday_of (tz now : Z) : Z :=
  (Day (now + tz) - (WeekDay (now + tz) + 6) mod 7)%Z.

(** Wednesday 2024-01-17, 10:00 UTC, which is noon two hours east *)
Definition wednesday : Z := 1705485600000.
Definition two_hours_east : Z := 7200000.

(** visits on Sunday 2024-01-14 (day 19736) and Wednesday 2024-01-17
    (day 19739) *)
Definition january : DB :=
  {| workouts := ∅;
     gym_visits := <["a" := 19736%Z]> (<["b" := 19739%Z]> ∅) |}.

(** the visits of [january] with a second row for the Wednesday *)
Definition twice : DB :=
  {| workouts := ∅;
     gym_visits := <["c" := 19739%Z]> (gym_visits january) |}.

Definition squat_row : WorkoutRow :=
  {| Store.exercise := js "Squat"; Store.sets := Int 3; Store.reps := Int 10;
     Store.weight := Int 135; notes := Some (js "felt good");
     created_at := wednesday |}.

Definition plank_row : WorkoutRow :=
  {| Store.exercise := js "Plank"; Store.sets := Int 3; Store.reps := Int 1;
     Store.weight := Int 0; notes := None;
     created_at := (wednesday - 3 * msPerDay)%Z |}.

Definition logbook : DB :=
  {| workouts := <["w1" := squat_row]> (<["w2" := plank_row]> ∅);
     gym_visits := ∅ |}.

(** Central European time in 2024: one hour ahead of UTC, and two hours
    from 31 March 01:00 UTC, when the clocks go from 02:00 to 03:00, to
    27 October 01:00 UTC, when they go from 03:00 back to 02:00 *)
Definition berlin : Zone :=
  {| offset_at := fun t =>
       if (t <? 1711846800000)%Z then 3600000%Z
       else if (t <? 1729990800000)%Z then 7200000%Z else 3600000%Z;
     offset_of_local := fun t =>
       if (t <? 1711846800000 + 7200000)%Z then 3600000%Z
       else if (t <? 1729990800000 + 7200000)%Z then 7200000%Z
       else 3600000%Z |}.

(** Sunday 2024-03-31, 10:00 UTC: noon in [berlin], on the day the clocks
    went forward *)
Definition spring_noon : Z := 1711879200000.

(** a workout logged at a given instant *)
Definition logged_at (created : Z) : WorkoutRow :=
  {| Store.exercise := js "Squat"; Store.sets := Int 3; Store.reps := Int 10;
     Store.weight := Int 135; notes := None; created_at := created |}.

(** the store that holds one workout, logged a given time before a given
    instant *)
Definition logged_before (now age : Z) : DB :=
  {| workouts := {["w1" := logged_at (now - age)%Z]}; gym_visits := ∅ |}.

(** half a day *)
Definition half : double := Dyadic 1 (-1).

(** ** The chat route *)

(** a message the handler accepts: a string that is not empty *)
Definition usable_message (v : value) : Prop :=
  exists s, v = Some (JString s) /\ s <> [].

(** a message that is absent, is not a string, or is the empty string *)
Definition rejected_message (v : value) : Prop :=
  v = None \/ (exists j, v = Some j /\ forall s, j <> JString s) \/
  v = Some (JString []).




Definition silent_model : list ApiMessage -> completion := fun _ => Returned [].

(** the shape of an entry of the workout context, as the specification
    writes it: [<weekday date>: <exercise> - <sets>x<reps> @ <weight>lbs] *)
Definition entry_shape (tz : Zone) (w : Workout) : jsstring :=
  toLocaleDateString tz (TimeClip (created_at w.2)) ++ js ": "
    ++ Store.exercise w.2 ++ js " - " ++ Number_toString (Store.sets w.2)
    ++ js "x" ++ Number_toString (Store.reps w.2) ++ js " @ "
    ++ Number_toString (Store.weight w.2) ++ js "lbs".

(** notes are present: there are notes and they are not the empty string *)
Definition notes_present (w : Workout) : Prop :=
  exists n, notes w.2 = Some n /\ n <> [].

(** [ (<notes>)] when notes are present, nothing otherwise *)
Definition notes_suffix (w : Workout) : jsstring :=
  match notes w.2 with
  | Some (c :: n) => js " (" ++ (c :: n) ++ js ")"
  | _ => []
  end.

(** the request [{ message: 'hi' }] and the request [{ message: '' }] *)
Definition hi_request : json := JObject [(js "message", JString (js "hi"))].
Definition empty_request : json := JObject [(js "message", JString [])].

(** the state of the chat with [hi] typed in *)
Definition typed_hi : ChatState :=
  {| messages := []; input := js "hi"; isLoading := false |}.

(* ===================================================================== *)
(** * The rest of the queries and server actions *)
(* ===================================================================== *)

Module WorkoutActions.

Local Open Scope Z_scope.

(** Modelled from the spec: the type [WorkoutInsert] is declared in
    [types/database.ts], which is not among the sources; it holds the
    fields a caller gives ([exercise], [sets], [reps], [weight], [notes]),
    and the store assigns the other two columns of the row: [id], an
    identifier not in use, and [created_at], the instant of the insertion. *)
Module Insert.
Record WorkoutInsert := {
  exercise : jsstring;
  sets : number;
  reps : number;
  weight : number;
  notes : option jsstring
}.
End Insert.

Abbreviation WorkoutInsert := Insert.WorkoutInsert.

(** the row the store makes of the fields given; the numbers are finite
    (the request writes a number that is not finite as [null]) *)
Definition row_of (data : WorkoutInsert) (created : Z) : WorkoutRow :=
  {| Store.exercise := Insert.exercise data; Store.sets := Insert.sets data;
     Store.reps := Insert.reps data; Store.weight := Insert.weight data;
     Store.notes := Insert.notes data; created_at := created |}.

(** [.from('workouts').select('*').order('created_at', { ascending: false })] *)
Definition select_workouts (db : DB) : Response (list Workout) :=
  {| data := Some (merge_sort newer_first (map_to_list (workouts db)));
     error := None |}.

(** [getWorkouts()] *)
Definition getWorkouts (db : DB) : outcome (list Workout) :=
  let r := select_workouts db in
  match error r with
  | Some message => Threw message
  | None =>
      match data r with
      | Some rows => Returned rows
      | None => Returned []
      end
  end.

Section Inserts.

(** The identifier the store gives a new row of [workouts], and the
    instant at which the store works. *)
Variable gen_id : gmap string WorkoutRow -> string.
Variable now : Z.

(** one row inserted *)
Definition insert_row (db : DB) (data : WorkoutInsert) : DB :=
  {| workouts := <[gen_id (workouts db) := row_of data now]> (workouts db);
     gym_visits := gym_visits db |}.

(** [.from('workouts').insert(data)] *)
Definition insert_workout (data : WorkoutInsert) (db : DB) : DB * Response unit :=
  (insert_row db data, {| data := None; error := None |}).

(** [.from('workouts').insert(workouts)], with an array: the rows are
    inserted in the order of the array, in one request *)
Definition insert_workouts (rows : list WorkoutInsert) (db : DB)
    : DB * Response unit :=
  (foldl insert_row db rows, {| data := None; error := None |}).

(** [addWorkout(data)] *)
Definition addWorkout (data : WorkoutInsert) (db : DB) : DB * outcome unit :=
  let '(db', r) := insert_workout data db in
  match error r with
  | Some message => (db', Threw message)
  | None => (db', Returned tt)
  end.

(** [addWorkouts(workouts)] *)
Definition addWorkouts (rows : list WorkoutInsert) (db : DB) : DB * outcome unit :=
  let '(db', r) := insert_workouts rows db in
  match error r with
  | Some message => (db', Threw message)
  | None => (db', Returned tt)
  end.

End Inserts.

End WorkoutActions.

Export WorkoutActions.

(* ===================================================================== *)
(** * The chat component: quick add *)
(* ===================================================================== *)

Module QuickAdd.

(** the state [handleQuickAdd] works on: the store, and [savedExercise]
    of the component *)
Record QuickAddState := {
  store : DB;
  savedExercise : option jsstring;
  logged : bool   (* [console.error] was called *)
}.

Definition ADDED_NOTE : jsstring := js "Added from AI suggestion".

Section QuickAdding.

Variable gen_id : gmap string WorkoutRow -> string.
Variable now : Z.

(** [handleQuickAdd(exercise)], up to the timer it starts *)
Definition handleQuickAdd (exercise : Exercise) (st : QuickAddState)
    : QuickAddState :=
  let workoutData :=
    {| Insert.exercise := AiChat.exercise exercise;
       Insert.sets := AiChat.sets exercise;
       Insert.reps := AiChat.reps exercise;
       Insert.weight := AiChat.weight exercise;
       Insert.notes := Some ADDED_NOTE |} in
  match addWorkout gen_id now workoutData (store st) with
  | (db', Returned _) =>
      {| store := db'; savedExercise := Some (AiChat.exercise exercise);
         logged := logged st |}
  | (db', Threw _) =>
      {| store := db'; savedExercise := savedExercise st; logged := true |}
  end.

End QuickAdding.

(** the timer of [handleQuickAdd], two seconds later:
    [setSavedExercise(null)] *)
Definition clear_saved (st : QuickAddState) : QuickAddState :=
  {| store := store st; savedExercise := None; logged := logged st |}.

(** the label of the button of a suggestion:
    [savedExercise === ex.exercise ? 'Saved!' : <>+ Add {ex.exercise}</>] *)
Definition button_label (saved : option jsstring) (ex : Exercise) : jsstring :=
  if decide (saved = Some (AiChat.exercise ex)) then js "Saved!"
  else js "+ Add " ++ AiChat.exercise ex.

End QuickAdd.

Export QuickAdd.

(* ===================================================================== *)
(** * The attendance grid *)
(* ===================================================================== *)

Module WeeklyAttendance.

Local Open Scope Z_scope.






(** the state of the component and the store it talks to *)
Record GridState := {
  grid_store : DB;
  visitedDates : gset Z;
  grid_logged : bool   (* [console.error] was called *)
}.

(** [new Set(initialVisits.map((v) => v.visited_date))] *)
Definition initial_visited (initialVisits : list GymVisit) : gset Z :=
  list_to_set (map snd initialVisits).

Section Toggling.

Variable gen_id : gmap string Z -> string.

(** [handleToggle(date)] *)
Definition handleToggle (date : Z) (st : GridState) : GridState :=
  match toggleGymVisit gen_id date (grid_store st) with
  | (db', Returned _) =>
      {| grid_store := db';
         visitedDates :=
           if decide (date ∈ visitedDates st)
           then visitedDates st ∖ {[date]}
           else visitedDates st ∪ {[date]};
         grid_logged := grid_logged st |}
  | (db', Threw _) =>
      {| grid_store := db'; visitedDates := visitedDates st;
         grid_logged := true |}
  end.

End Toggling.

End WeeklyAttendance.

Export WeeklyAttendance.

(* ===================================================================== *)
(** * The chat component: the request it sends *)
(* ===================================================================== *)

Module ChatRequest.

Definition role_text (r : Role) : jsstring :=
  match r with user => js "user" | assistant => js "assistant" end.

(** a turn of the chat as [JSON.stringify] writes it and [req.json()]
    reads it back: its three properties, all strings *)
Definition message_json (m : ChatMessage) : json :=
  JObject [(js "id", JString (js (AiChat.id m)));
           (js "role", JString (role_text (AiChat.role m)));
           (js "content", JString (AiChat.content m))].

(** the body of the request of [handleSubmit], as the handler reads it:
    [{ message: userMessage.content, history: messages }], where
    [messages] is the state the component was rendered with, the turns
    before the one being sent *)
Definition chat_request (st : ChatState) : json :=
  JObject [(js "message", JString (trim (input st)));
           (js "history", JArray (map message_json (messages st)))].

End ChatRequest.

Export ChatRequest.

(* ===================================================================== *)
(** * More vocabulary *)
(* ===================================================================== *)

(** a store that gives a new workout row the first identifier not in use *)
Definition fresh_workout_id (m : gmap string WorkoutRow) : string := fresh (dom m).

(** the fields of a bench press, as the form or a suggestion gives them *)
Definition bench_insert : WorkoutInsert :=
  {| Insert.exercise := js "Bench Press"; Insert.sets := Int 3;
     Insert.reps := Int 10; Insert.weight := Int 135; Insert.notes := None |}.

(** one hour after [wednesday] *)
Definition later : Z := (wednesday + 3600000)%Z.





(** the grid that shows the visits of [twice], where the Wednesday has
    two rows *)
Definition twice_grid : GridState :=
  {| grid_store := twice;
     visitedDates := initial_visited (map_to_list (gym_visits twice));
     grid_logged := false |}.

(** a response that makes [handleSubmit] fail: [fetch] rejects, the
    response is not ok, or a read of the body rejects after some chunks *)
Inductive failed_response : fetch_result -> Prop :=
  | fetch_rejected : failed_response FetchRejected
  | response_not_ok body : failed_response (FetchResponse false body)
  | read_rejected values rest :
      failed_response
        (FetchResponse true (Some (map ReadValue values ++ ReadRejected :: rest))).

(** a text of white space only *)
Definition blank (s : jsstring) : Prop := Forall (fun c => is_space c = true) s.

(** a number that is an integer and not negative, or the positive
    infinity *)
Definition whole_or_infinite (n : number) : Prop :=
  (exists v, n = Int v /\ (0 <= v)%Z) \/ n = Infinity false.

(** a number the request to the store can carry: neither NaN nor an
    infinity, which JSON writes as [null] *)
Definition finite (n : number) : Prop :=
  match n with NaN | Infinity _ => False | Int _ | Other _ => True end.

(** a text without asterisks *)
Definition plain_text : jsstring := js "Do three sets of squats, then rest.".

(** the turns of the chat after a message was sent at [now1], its
    answer opened at [now2]: the turns of [st], the user's turn and the
    assistant's turn with the content [c] *)
Definition turns_after (now1 now2 : Z) (st : ChatState) (c : jsstring)
    : list ChatMessage :=
  messages st ++
  [{| AiChat.id := pretty now1; AiChat.role := user;
      AiChat.content := trim (input st) |};
   {| AiChat.id := pretty (now2 + 1)%Z; AiChat.role := assistant;
      AiChat.content := c |}].

(** the quick-add state over the store [logbook], nothing saved yet *)
Definition logbook_chat : QuickAddState :=
  {| store := logbook; savedExercise := None; logged := false |}.

(** what the handler makes of an entry of the history: its [role] and
    its [content], whatever they are *)
Definition forwarded (msg : json) : ApiMessage :=
  {| ChatRoute.role := get (js "role") msg;
     ChatRoute.content := get (js "content") msg |}.

(** what the handler makes of a turn of the chat *)
Definition turn_message (m : ChatMessage) : ApiMessage :=
  {| ChatRoute.role := Some (JString (role_text (AiChat.role m)));
     ChatRoute.content := Some (JString (AiChat.content m)) |}.

(** the messages the model is called with *)
Definition model_messages (SYSTEM_PROMPT : jsstring) (tz : Zone)
    (rows : list Workout) (previous : list ApiMessage) (message : jsstring)
    : list ApiMessage :=
  [{| ChatRoute.role := Some (JString (js "system"));
      ChatRoute.content :=
        Some (JString (SYSTEM_PROMPT ++ [10%N; 10%N]
                         ++ formatWorkoutsForContext tz rows)) |}]
  ++ previous ++
  [{| ChatRoute.role := Some (JString (js "user"));
      ChatRoute.content := Some (JString message) |}].

(** the answer and the events once the model was called with [msgs] *)
Definition after_model (groq : list ApiMessage -> completion)
    (msgs : list ApiMessage) : HttpResponse * list event :=
  match groq msgs with
  | Returned stream =>
      ({| status := 200; body := StreamBody (start stream) |},
       [GetRecentWorkouts 14;
        CreateCompletion "llama-3.3-70b-versatile" msgs 1024])
  | Threw _ =>
      ({| status := 500; body := JsonBody "Failed to generate response" |},
       [GetRecentWorkouts 14;
        CreateCompletion "llama-3.3-70b-versatile" msgs 1024; ConsoleError])
  end.

(** a chat with one exchange behind it and a new question typed in *)
Definition second_question : ChatState :=
  {| messages :=
       [{| AiChat.id := "1000"; AiChat.role := user; AiChat.content := js "hi" |};
        {| AiChat.id := "1001"; AiChat.role := assistant;
           AiChat.content := js "Hello" |}];
     input := js " legs today? ";
     isLoading := false |}.

(** ** Text as code points *)

(** a Unicode scalar value: a code point that is not a surrogate *)
Definition scalar_value (cp : N) : Prop :=
  ((cp < 55296)%N \/ (57343 < cp)%N) /\ (cp < 1114112)%N.

(** the string of a sequence of code points *)
Definition utf16 (cps : list N) : jsstring := concat (map code_units cps).

(** a well-formed text that does not start with a byte order mark *)
Definition well_formed_text (s : jsstring) : Prop :=
  exists cps, Forall scalar_value cps /\ head cps <> Some 65279%N /\ s = utf16 cps.


(* ===================================================================== *)
(** * Properties of the matcher *)
(* ===================================================================== *)

Section Matcher.

Variable ic : bool.

Lemma run_star_nil k r recording acc :
  run ic (Star k :: r) [] recording acc = run ic r [] recording acc.
Proof. reflexivity. Qed.

Lemma run_star_cons k r c s recording acc :
  run ic (Star k :: r) (c :: s) recording acc =
  if mem ic k c then
    match run ic (Star k :: r) s recording (record recording c acc) with
    | Some x => Some x
    | None => run ic r (c :: s) recording acc
    end
  else run ic r (c :: s) recording acc.
Proof. reflexivity. Qed.

Lemma run_plus_cons k r c s recording acc :
  run ic (Plus k :: r) (c :: s) recording acc =
  if mem ic k c then run ic (Star k :: r) s recording (record recording c acc)
  else None.
Proof. reflexivity. Qed.

End Matcher.

(** ** The bold pattern *)

Lemma bold_name_run s acc g rest :
  run false [Star (NotLit 42); Close; One (Lit 42); One (Lit 42)] s true acc
    = Some (g, rest) ->
  exists t, g = rev acc ++ t /\ s = t ++ [42; 42] ++ rest /\ star_free t.
Proof.
  revert acc. induction s as [|c s IH]; intros acc H.
  - discriminate H.
  - rewrite run_star_cons in H. cbn [mem] in H.
    destruct (N.eqb_spec c 42) as [->|Hc]; cbn [negb] in H.
    + destruct s as [|d s]; [discriminate H|].
      cbn in H. destruct (N.eqb_spec d 42) as [->|]; [|discriminate H].
      injection H as <- <-. exists []. rewrite app_nil_r.
      repeat split. constructor.
    + destruct (run false _ s true (record true c acc)) as [x|] eqn:E.
      * injection H as ->. apply IH in E as (t & -> & -> & Ht).
        exists (c :: t). cbn. rewrite <- app_assoc. repeat split.
        constructor; assumption.
      * cbn in H. destruct (N.eqb_spec c 42); [contradiction|discriminate H].
Qed.

Lemma match_at_BOLD s g rest :
  match_at BOLD s = Some (g, rest) ->
  s = [42; 42] ++ g ++ [42; 42] ++ rest /\ g <> [] /\ star_free g.
Proof.
  unfold match_at. cbn [BOLD items ignoreCase lits js map list_ascii_of_string app].
  destruct s as [|a [|b [|c s]]]; try discriminate.
  - cbn. destruct (a =? _); discriminate.
  - cbn. destruct (a =? _); [|discriminate]. destruct (b =? _); discriminate.
  - cbn -[run]. intros H.
    change (run false (One (Lit 42) :: One (Lit 42) :: Open :: Plus (NotLit 42)
                         :: [Close; One (Lit 42); One (Lit 42)])
                (a :: b :: c :: s) false [] = Some (g, rest)) in H.
    cbn [run mem] in H.
    destruct (N.eqb_spec a 42) as [->|]; [|discriminate H].
    destruct (N.eqb_spec b 42) as [->|]; [|discriminate H].
    destruct (N.eqb_spec c 42) as [->|Hc]; [discriminate H|].
    cbn [negb] in H.
    apply bold_name_run in H as (t & -> & -> & Ht).
    cbn. repeat split; [discriminate|]. constructor; assumption.
Qed.

Lemma bold_name_run_complete t rest : forall acc,
  star_free t ->
  run false [Star (NotLit 42); Close; One (Lit 42); One (Lit 42)]
      (t ++ [42; 42] ++ rest) true acc = Some (rev acc ++ t, rest).
Proof.
  induction t as [|c t IH]; intros acc Ht.
  - cbn. by rewrite app_nil_r.
  - apply Forall_cons in Ht as [Hc Ht]. cbn [app].
    rewrite run_star_cons. cbn [mem].
    destruct (N.eqb_spec c 42) as [|_]; [done|]. cbn [negb record].
    rewrite (IH _ Ht). cbn. by rewrite <- app_assoc.
Qed.

(** where the bold pattern matches: at two asterisks, a name that is not
    empty and holds no asterisk, and two asterisks *)
Lemma match_at_BOLD_iff s g rest :
  match_at BOLD s = Some (g, rest) <->
  s = js "**" ++ g ++ js "**" ++ rest /\ g <> [] /\ star_free g.
Proof.
  split; [apply match_at_BOLD|].
  intros (-> & Hne & Hg). destruct g as [|c g]; [done|].
  apply Forall_cons in Hg as [Hc Hg].
  change (match_at BOLD (js "**" ++ (c :: g) ++ js "**" ++ rest))
    with (run false (Plus (NotLit 42) :: [Close; One (Lit 42); One (Lit 42)])
              (c :: g ++ [42; 42] ++ rest) true []).
  rewrite run_plus_cons. cbn [mem].
  destruct (N.eqb_spec c 42) as [|_]; [done|]. cbn [negb record].
  by rewrite (bold_name_run_complete g rest [c] Hg).
Qed.

(** ** Splitting *)

Lemma split_from_skip re s k acc :
  split_from re s k acc = split_from re (drop k s) 0 acc.
Proof.
  revert k. induction s as [|c s IH]; intros [|k]; try reflexivity.
  cbn [split_from drop]. apply IH.
Qed.

Lemma unsplit_split_from n : forall s acc,
  (length s <= n)%nat ->
  unsplit (split_from BOLD s 0 acc) = rev acc ++ s.
Proof.
  induction n as [|n IH]; intros s acc Hn.
  - destruct s; [|cbn in Hn; lia]. cbn. by rewrite !app_nil_r.
  - destruct s as [|c s]; [cbn; by rewrite !app_nil_r|].
    cbn [split_from].
    destruct (match_at BOLD (c :: s)) as [[g rest]|] eqn:E.
    + apply match_at_BOLD in E as (Hs & Hg & _).
      assert (Hlen : length (c :: s) = (4 + length g + length rest)%nat).
      { rewrite Hs. cbn. rewrite !length_app. cbn. lia. }
      destruct (Nat.ltb_spec (length rest) (length (c :: s))); [|lia].
      rewrite split_from_skip.
      assert (Hd : drop (length (c :: s) - length rest - 1) s = rest).
      { rewrite Hlen. cbn in Hs. injection Hs as -> ->.
        replace (42 :: g ++ 42 :: 42 :: rest)
          with ((42 :: g ++ [42; 42]) ++ rest)
          by (cbn; by rewrite <- app_assoc).
        replace (4 + length g + length rest - length rest - 1)%nat
          with (length (42 :: g ++ [42; 42]))
          by (cbn; rewrite length_app; cbn; lia).
        apply drop_app_length. }
      rewrite Hd. cbn [unsplit]. rewrite IH by (cbn in Hlen; lia).
      rewrite Hs. reflexivity.
    + rewrite IH by (cbn in Hn; lia). cbn. by rewrite <- app_assoc.
Qed.

Lemma unsplit_split content : unsplit (split BOLD content) = content.
Proof.
  destruct content as [|c s]; [reflexivity|].
  unfold split. by rewrite (unsplit_split_from (length (c :: s))).
Qed.

(** ** The loop of the extractor *)

Lemma loop_body_suggestion sections i name :
  sections !! i = Some name ->
  loop_body sections i = suggestion (name, default [] (sections !! (i + 1)%nat)).
Proof.
  intros Hi. unfold loop_body, suggestion, first_int. rewrite Hi. cbn.
  destruct (exec SETS _), (exec REPS _), (exec WEIGHT _); reflexivity.
Qed.

Lemma blocks_drop sections i name :
  sections !! i = Some name ->
  blocks (drop i sections) =
  (name, default [] (sections !! (i + 1)%nat)) :: blocks (drop (i + 2) sections).
Proof.
  intros Hi.
  rewrite (drop_S _ _ _ Hi). cbn [blocks].
  replace (i + 2)%nat with (S (S i)) by lia.
  replace (i + 1)%nat with (S i) by lia.
  destruct (sections !! S i) as [d|] eqn:E.
  - by rewrite (drop_S _ _ _ E).
  - apply lookup_ge_None in E. rewrite !drop_ge by lia. reflexivity.
Qed.

Lemma parse_loop_blocks fuel : forall sections i exercises,
  (length sections <= i + 2 * fuel)%nat ->
  parse_loop fuel sections i exercises =
  exercises ++ omap suggestion (blocks (drop i sections)).
Proof.
  induction fuel as [|fuel IH]; intros sections i exercises Hf.
  - rewrite drop_ge by lia. cbn. by rewrite app_nil_r.
  - cbn [parse_loop]. destruct (Nat.ltb_spec i (length sections)) as [Hi|Hi].
    + destruct (lookup_lt_is_Some_2 _ _ Hi) as [name Hname].
      rewrite (blocks_drop _ _ _ Hname), (loop_body_suggestion _ _ _ Hname).
      rewrite IH by lia. cbn [omap list_omap].
      destruct (suggestion _); [by rewrite <- app_assoc | reflexivity].
    + rewrite drop_ge by lia. cbn. by rewrite app_nil_r.
Qed.

Lemma parseExercisesFromMessage_extract content :
  parseExercisesFromMessage content = extract_suggestions content.
Proof.
  unfold parseExercisesFromMessage, extract_suggestions.
  rewrite parse_loop_blocks by lia. reflexivity.
Qed.

Lemma suggestion_Some b e :
  suggestion b = Some e <->
  trim b.1 <> [] /\
  exists s r w,
    exec SETS b.2 = Some s /\ exec REPS b.2 = Some r /\
    exec WEIGHT b.2 = Some w /\
    e = {| AiChat.exercise := trim b.1; AiChat.sets := parseInt s;
           AiChat.reps := parseInt r; AiChat.weight := parseInt w |}.
Proof.
  unfold suggestion, first_int.
  destruct (exec SETS b.2) as [s|], (exec REPS b.2) as [r|],
    (exec WEIGHT b.2) as [w|]; cbn;
    try (split; [discriminate | intros (_ & ? & ? & ? & ? & ? & ? & _); discriminate]).
  destruct (trim b.1) as [|c t] eqn:Et; cbn.
  - split; [discriminate | intros [? _]; congruence].
  - split.
    + intros [= <-]. split; [discriminate|]. by exists s, r, w.
    + intros (_ & s' & r' & w' & [= <-] & [= <-] & [= <-] & ->). reflexivity.
Qed.

(** ** The label patterns *)

Lemma space_not_digit c : is_space c = true -> is_digit c = false.
Proof.
  unfold is_space, is_digit. intros H.
  destruct (N.leb_spec 48 c), (N.leb_spec c 57); try reflexivity.
  repeat (apply orb_prop in H as [H|H]);
    try (apply N.eqb_eq in H; lia).
  apply andb_prop in H as [H _]. apply N.leb_le in H. lia.
Qed.

Lemma run_digits ic s acc :
  run ic [Star Digit; Close] s true acc =
  Some (rev acc ++ take_while is_digit s, drop_while is_digit s).
Proof.
  revert acc. induction s as [|c s IH]; intros acc.
  - cbn. by rewrite app_nil_r.
  - rewrite run_star_cons. cbn [mem take_while drop_while].
    destruct (is_digit c).
    + rewrite IH. cbn. by rewrite <- app_assoc.
    + cbn. by rewrite app_nil_r.
Qed.

Lemma run_int_tail ic s acc :
  run ic int_tail s false acc = digits_after_spaces s.
Proof.
  unfold int_tail, digits_after_spaces.
  induction s as [|c s IH].
  - reflexivity.
  - rewrite run_star_cons. cbn [mem drop_while record].
    destruct (is_space c) eqn:Hs.
    + rewrite IH.
      destruct (drop_while is_space s) as [|d s'].
      * cbn. by rewrite (space_not_digit c Hs).
      * destruct (is_digit d); [reflexivity|].
        cbn. by rewrite (space_not_digit c Hs).
    + change (run ic [Open; Plus Digit; Close] (c :: s) false acc)
        with (run ic (Plus Digit :: [Close]) (c :: s) true []).
      rewrite run_plus_cons. cbn [mem].
      destruct (is_digit c); [|reflexivity].
      by rewrite run_digits.
Qed.

(** comparing canonical forms, as the matcher does, is comparing
    letters case apart *)
Lemma same_letter_canonicalize x c :
  same_letter x c = (canonicalize c =? canonicalize x).
Proof.
  unfold same_letter, canonicalize.
  destruct (N.leb_spec 97 c), (N.leb_spec c 122), (N.leb_spec 97 x),
    (N.leb_spec x 122), (N.leb_spec 65 x), (N.leb_spec x 90); cbn [andb];
    repeat match goal with
           | |- context [N.eqb ?a ?b] => destruct (N.eqb_spec a b)
           end; cbn [andb orb]; first [reflexivity | lia].
Qed.

Lemma run_lits r label s acc :
  run true (map (fun c => One (Lit c)) label ++ r) s false acc =
  strip_ci label s ≫= fun s' => run true r s' false acc.
Proof.
  revert s. induction label as [|x label IH]; intros s; [reflexivity|].
  destruct s as [|c s]; [reflexivity|].
  cbn [map app run mem strip_ci record]. rewrite same_letter_canonicalize.
  destruct (canonicalize c =? canonicalize x); [apply IH | reflexivity].
Qed.

Lemma strip_ci_app l1 l2 s :
  strip_ci (l1 ++ l2) s = strip_ci l1 s ≫= strip_ci l2.
Proof.
  revert s. induction l1 as [|x l1 IH]; intros s; [reflexivity|].
  destruct s as [|c s]; [reflexivity|].
  cbn [app strip_ci]. destruct (same_letter x c); [apply IH | reflexivity].
Qed.

Lemma match_at_WEIGHT s : match_at WEIGHT s = label_int (js "Weight") s.
Proof.
  unfold match_at, label_int, WEIGHT, lits. cbn [items ignoreCase].
  change (js "Weight:") with (js "Weight" ++ [58]).
  rewrite run_lits.
  destruct (strip_ci _ s); [apply run_int_tail | reflexivity].
Qed.

(** an optional [s] before the colon: the label with it, or without *)
Lemma match_at_plural stem s :
  run true (map (fun c => One (Lit c)) stem ++ [Opt (Lit 115)] ++
            map (fun c => One (Lit c)) [58] ++ int_tail) s false [] =
  at_labels [stem ++ [115]; stem] s.
Proof.
  rewrite run_lits. unfold at_labels, label_int.
  rewrite <- !app_assoc, !strip_ci_app.
  destruct (strip_ci stem s) as [s1|]; [|reflexivity].
  cbn [mbind option_bind].
  destruct s1 as [|c s1].
  - reflexivity.
  - cbn [app run mem strip_ci map]. rewrite ?same_letter_canonicalize.
    destruct (N.eqb_spec (canonicalize c) (canonicalize 115)) as [Hc|Hc].
    + assert (Hne : (canonicalize c =? canonicalize 58) = false).
      { rewrite Hc. reflexivity. }
      rewrite Hne.
      destruct s1 as [|d s1]; [reflexivity|].
      cbn [record]. rewrite ?same_letter_canonicalize.
      destruct (canonicalize d =? canonicalize 58); cbn [mbind option_bind].
      * rewrite run_int_tail. by destruct (digits_after_spaces s1).
      * reflexivity.
    + cbn [record mbind option_bind].
      destruct (canonicalize c =? canonicalize 58); cbn [mbind option_bind];
        [|reflexivity].
      rewrite run_int_tail. by destruct (digits_after_spaces s1).
Qed.

Lemma match_at_SETS s : match_at SETS s = at_labels [js "Sets"; js "Set"] s.
Proof. apply (match_at_plural (js "Set")). Qed.

Lemma match_at_REPS s : match_at REPS s = at_labels [js "Reps"; js "Rep"] s.
Proof. apply (match_at_plural (js "Rep")). Qed.

Lemma match_at_WEIGHT_labels s :
  match_at WEIGHT s = at_labels [js "Weight"] s.
Proof.
  rewrite match_at_WEIGHT. cbn [at_labels].
  by destruct (label_int (js "Weight") s).
Qed.

Lemma exec_find_first re labels :
  (forall s, match_at re s = at_labels labels s) ->
  forall s, exec re s = find_first labels s.
Proof.
  intros H s. induction s as [|c s IH]; cbn [exec find_first]; rewrite H.
  - reflexivity.
  - destruct (at_labels labels (c :: s)) as [[g rest]|]; [reflexivity | apply IH].
Qed.

(** ** What the capture of an integer holds *)

Lemma take_while_all_digits s : all_digits (take_while is_digit s).
Proof.
  induction s as [|c s IH]; cbn; [constructor|].
  destruct (is_digit c) eqn:E; constructor; assumption.
Qed.

Lemma take_while_all g : all_digits g -> take_while is_digit g = g.
Proof.
  induction 1 as [|c g Hc _ IH]; cbn; [reflexivity|]. by rewrite Hc, IH.
Qed.

Lemma digits_after_spaces_capture s g rest :
  digits_after_spaces s = Some (g, rest) -> g <> [] /\ all_digits g.
Proof.
  unfold digits_after_spaces.
  destruct (drop_while is_space s) as [|d s']; [discriminate|].
  destruct (is_digit d) eqn:Hd; [|discriminate].
  intros [= <- <-]. split; [discriminate|].
  constructor; [assumption | apply take_while_all_digits].
Qed.

Lemma at_labels_capture labels s g rest :
  at_labels labels s = Some (g, rest) -> g <> [] /\ all_digits g.
Proof.
  induction labels as [|l labels IH]; cbn; [discriminate|].
  destruct (label_int l s) as [[g' rest']|] eqn:E; [|apply IH].
  intros [= <- <-]. unfold label_int in E.
  destruct (strip_ci _ s) as [s1|]; [|discriminate].
  by apply digits_after_spaces_capture in E.
Qed.

Lemma find_first_capture labels s g :
  find_first labels s = Some g -> g <> [] /\ all_digits g.
Proof.
  induction s as [|c s IH]; cbn [find_first];
    destruct (at_labels labels _) as [[g' rest]|] eqn:E;
    try discriminate; try apply IH;
    intros [= <-]; by apply at_labels_capture in E.
Qed.

Lemma digits_value_nonneg ds : (0 <= digits_value ds)%Z.
Proof.
  unfold digits_value.
  assert (H : forall v, (0 <= v)%Z ->
            (0 <= fold_left (fun v c => 10 * v + digit_value c) ds v)%Z).
  { induction ds as [|c ds IH]; intros v Hv; [assumption|].
    cbn [fold_left]. apply IH. unfold digit_value. lia. }
  by apply H.
Qed.

(** below 2^53 the Number value of an integer is the integer *)
Lemma round53_exact z : (Z.abs z < 2 ^ 53)%Z -> round53 z = (z, 0%Z).
Proof.
  intros H. unfold round53. by destruct (Z.ltb_spec (Z.abs z) (2 ^ 53)); [|lia].
Qed.

Lemma to_number_exact z : (Z.abs z < 2 ^ 53)%Z -> to_number z = Int z.
Proof.
  intros H. unfold to_number. rewrite (round53_exact z H).
  destruct (Z.leb_spec (2 ^ 1024) (Z.abs z * 2 ^ 0)) as [Hi|Hi].
  - exfalso. change (2 ^ 0)%Z with 1%Z in Hi.
    assert (2 ^ 53 < 2 ^ 1024)%Z by (apply Z.pow_lt_mono_r; lia). lia.
  - f_equal. change (2 ^ 0)%Z with 1%Z. lia.
Qed.

(** the Number value of an integer that is not negative is an integer
    that is not negative, or the positive infinity *)
Lemma to_number_nonneg z :
  (0 <= z)%Z ->
  (exists v, to_number z = Int v /\ (0 <= v)%Z) \/ to_number z = Infinity false.
Proof.
  intros Hz.
  destruct (Z.ltb_spec (Z.abs z) (2 ^ 53)) as [Hs|Hs].
  { left. exists z. by rewrite (to_number_exact z Hs). }
  unfold to_number, round53.
  destruct (Z.ltb_spec (Z.abs z) (2 ^ 53)); [lia|].
  destruct (Z.ltb_spec z 0); [lia|].
  match goal with |- context [Z.leb ?a ?b] => destruct (Z.leb_spec a b) as [Hi|Hi] end;
    [by right|].
  left. eexists. split; [reflexivity|].
  assert (Hp : (0 < 2 ^ (Z.log2 (Z.abs z) - 52))%Z).
  { apply Z.pow_pos_nonneg; [lia|].
    assert (53 <= Z.log2 (Z.abs z))%Z; [|lia].
    apply Z.log2_le_pow2; lia. }
  assert (Hq : (0 <= Z.abs z / 2 ^ (Z.log2 (Z.abs z) - 52))%Z)
    by (apply Z.div_pos; lia).
  replace (Z.sgn z) with 1%Z by lia.
  destruct (_ || _); nia.
Qed.

Lemma parseInt_digits g :
  g <> [] -> all_digits g -> parseInt g = to_number (digits_value g).
Proof.
  intros Hne Hg. destruct Hg as [|d g Hd Hg]; [done|].
  assert (Hsp : is_space d = false).
  { destruct (is_space d) eqn:E; [|reflexivity].
    apply space_not_digit in E. congruence. }
  unfold parseInt. cbn [drop_while]. rewrite Hsp.
  assert (Hsign : d <> 45 /\ d <> 43).
  { unfold is_digit in Hd. apply andb_prop in Hd as [H1 _].
    apply N.leb_le in H1. lia. }
  destruct Hsign as [H45 H43].
  assert (Ht : take_while is_digit (d :: g) = d :: g).
  { apply take_while_all. by constructor. }
  destruct d as [|p]; [discriminate Hd|].
  do 6 (destruct p as [p|p|]; try discriminate Hd; try done);
    cbn [take_while] in Ht |- *; rewrite ?Hd in Ht |- *;
    try (injection Ht as ->; reflexivity).
Qed.

(** ** Text put after a place where the weight pattern fails *)

Lemma strip_ci_stop l p q :
  Forall (fun x => canonicalize x <> canonicalize 87) l ->
  strip_ci l (p ++ 87 :: q) = (fun p' => p' ++ 87 :: q) <$> strip_ci l p.
Proof.
  intros Hl. revert p. induction Hl as [|x l Hx Hl IH]; intros p.
  - reflexivity.
  - destruct p as [|c p]; cbn [app strip_ci]; rewrite same_letter_canonicalize.
    + destruct (N.eqb_spec (canonicalize 87) (canonicalize x)); [congruence|reflexivity].
    + destruct (_ =? _); [apply IH | reflexivity].
Qed.

Lemma digits_after_spaces_stop p q :
  digits_after_spaces p = None ->
  digits_after_spaces (p ++ 87 :: q) = None.
Proof.
  unfold digits_after_spaces. induction p as [|c p IH]; cbn [app drop_while].
  - reflexivity.
  - destruct (is_space c); [apply IH|].
    destruct (is_digit c); [discriminate | reflexivity].
Qed.

Lemma match_at_WEIGHT_stop c p q :
  match_at WEIGHT (c :: p) = None ->
  match_at WEIGHT (c :: p ++ 87 :: q) = None.
Proof.
  rewrite !match_at_WEIGHT. unfold label_int.
  change (js "Weight" ++ [58]) with (87 :: js "eight:").
  cbn [app strip_ci]. rewrite same_letter_canonicalize.
  destruct (canonicalize c =? canonicalize 87); [|reflexivity].
  rewrite strip_ci_stop by (repeat constructor; discriminate).
  destruct (strip_ci (js "eight:") p) as [p'|]; cbn; [|reflexivity].
  apply digits_after_spaces_stop.
Qed.

Lemma exec_WEIGHT_later pre s :
  exec WEIGHT pre = None ->
  exec WEIGHT (pre ++ 87 :: s) = exec WEIGHT (87 :: s).
Proof.
  induction pre as [|c pre IH]; [reflexivity|].
  cbn [exec app]. destruct (match_at WEIGHT (c :: pre)) as [[g r]|] eqn:E;
    [discriminate|].
  intros H. rewrite (match_at_WEIGHT_stop _ _ _ E). by apply IH.
Qed.

Lemma drop_while_spaces_app ws s :
  Forall (fun c => is_space c = true) ws ->
  drop_while is_space (ws ++ s) = drop_while is_space s.
Proof. induction 1 as [|c ws Hc _ IH]; cbn; [reflexivity | by rewrite Hc]. Qed.

Lemma take_while_digits_app d s :
  all_digits d -> take_while is_digit (d ++ s) = d ++ take_while is_digit s.
Proof. induction 1 as [|c d Hc _ IH]; cbn; [reflexivity | by rewrite Hc, IH]. Qed.

Lemma drop_while_digits_app d s :
  all_digits d -> drop_while is_digit (d ++ s) = drop_while is_digit s.
Proof. induction 1 as [|c d Hc _ IH]; cbn; [reflexivity | by rewrite Hc]. Qed.

(** the integer part of a decimal fraction, after white space *)
Lemma digits_after_spaces_fraction ws d post :
  Forall (fun c => is_space c = true) ws -> d <> [] -> all_digits d ->
  digits_after_spaces (ws ++ d ++ 46 :: post) = Some (d, 46 :: post).
Proof.
  intros Hws Hne Hd. unfold digits_after_spaces.
  rewrite (drop_while_spaces_app _ _ Hws).
  destruct Hd as [|c d Hc Hd]; [done|]. cbn [app drop_while].
  assert (Hsp : is_space c = false).
  { destruct (is_space c) eqn:E; [|reflexivity].
    apply space_not_digit in E. congruence. }
  rewrite Hsp, Hc.
  by rewrite (take_while_digits_app _ _ Hd), (drop_while_digits_app _ _ Hd),
    app_nil_r.
Qed.

Lemma exec_WEIGHT_fraction pre ws d post :
  exec WEIGHT pre = None ->
  Forall (fun c => is_space c = true) ws -> d <> [] -> all_digits d ->
  exec WEIGHT (pre ++ js "Weight:" ++ ws ++ d ++ 46 :: post) = Some d.
Proof.
  intros Hpre Hws Hne Hd.
  change (js "Weight:" ++ ws ++ d ++ 46 :: post)
    with (87 :: js "eight:" ++ ws ++ d ++ 46 :: post).
  rewrite (exec_WEIGHT_later _ _ Hpre). cbn [exec].
  rewrite match_at_WEIGHT. unfold label_int.
  change (strip_ci (js "Weight" ++ [58])
            (87 :: js "eight:" ++ ws ++ d ++ 46 :: post))
    with (Some (ws ++ d ++ 46 :: post)).
  cbn [mbind option_bind].
  by rewrite digits_after_spaces_fraction.
Qed.

Lemma exec_WEIGHT_135_5 post :
  exec WEIGHT (js "Weight: 135.5" ++ post) = Some (js "135").
Proof.
  change (js "Weight: 135.5" ++ post)
    with (87 :: js "eight: 135" ++ 46 :: 53 :: post).
  cbn [exec]. rewrite match_at_WEIGHT. reflexivity.
Qed.

(** C1. The bold pattern matches where two asterisks, a name that is not
    empty and holds no asterisk, and two asterisks stand. The extractor
    splits the text on these spans (the pieces, put together again with
    their asterisks, give the text back); its loop
    emits, block by block and in the order of the bold names, the
    suggestion of each block, where a block is a bold name with the plain
    segment right after it and nothing is removed for being a duplicate;
    the three patterns find the first place where the label (Sets or Set,
    Reps or Rep, Weight, in any letter case), a colon, optional white space
    and an integer stand; a block gives a suggestion exactly when its
    trimmed name is not empty and all three integers are found. A label
    is found letter by letter, each letter in either case and every other
    character as it is. The text of the specification gives the one
    suggestion Squat 3 x 10 at 135, without its Reps line it gives none,
    and a block repeated gives its suggestion twice; with the labels
    written [SETS], [reps] and [wEiGhT] the block gives the same
    suggestion, and with [Weigh] for [Weight] it gives none. *)
Theorem parseExercisesFromMessage_blocks :
  (forall s g rest,
     match_at BOLD s = Some (g, rest) <->
     s = js "**" ++ g ++ js "**" ++ rest /\ g <> [] /\ star_free g) /\
  (forall content, unsplit (split BOLD content) = content) /\
  (forall content,
     parseExercisesFromMessage content =
     omap suggestion (blocks (drop 1 (split BOLD content)))) /\
  (forall details,
     exec SETS details = find_first [js "Sets"; js "Set"] details /\
     exec REPS details = find_first [js "Reps"; js "Rep"] details /\
     exec WEIGHT details = find_first [js "Weight"] details) /\
  (forall b e,
     suggestion b = Some e <->
     trim b.1 <> [] /\
     exists s r w,
       exec SETS b.2 = Some s /\ exec REPS b.2 = Some r /\
       exec WEIGHT b.2 = Some w /\
       e = {| AiChat.exercise := trim b.1; AiChat.sets := parseInt s;
              AiChat.reps := parseInt r; AiChat.weight := parseInt w |}) /\
  parseExercisesFromMessage squat_text = [squat] /\
  parseExercisesFromMessage squat_text_no_reps = [] /\
  parseExercisesFromMessage (squat_text ++ [10] ++ squat_text) = [squat; squat] /\
  parseExercisesFromMessage squat_text_other_case = [squat] /\
  parseExercisesFromMessage squat_text_other_label = [].
Proof.
  split; [exact match_at_BOLD_iff|].
  split; [exact unsplit_split|].
  split; [exact parseExercisesFromMessage_extract|].
  split.
  { intros details. split; [|split].
    - apply exec_find_first, match_at_SETS.
    - apply exec_find_first, match_at_REPS.
    - apply exec_find_first, match_at_WEIGHT_labels. }
  split; [exact suggestion_Some|].
  repeat split; vm_compute; reflexivity.
Qed.

(** C7. Whatever the text, what the weight pattern captures is a run of
    decimal digits and nothing else, not empty, and the weight extracted is
    the Number value of the integer those digits write: that integer
    itself below 2^53, the nearest double beyond (for 9007199254740993
    that is 9007199254740992, and for a run of 309 nines the positive
    infinity). So a fractional weight is cut at the
    point: where the label, optional white space, an integer part [d] and
    a point stand at the first place the pattern matches (no match in the
    text before the label), whatever follows the point, the capture is
    [d]. In particular the details that contain [Weight: 135.5] there give
    the capture [135] and the weight 135, and the suggestion emitted for
    such a block has weight 135. *)
Theorem weight_capture_integer_digits :
  (forall details w,
     exec WEIGHT details = Some w ->
     w <> [] /\ all_digits w /\ parseInt w = to_number (digits_value w) /\
     ((digits_value w < 2 ^ 53)%Z -> parseInt w = Int (digits_value w))) /\
  (forall pre ws d post,
     exec WEIGHT pre = None ->
     Forall (fun c => is_space c = true) ws -> d <> [] -> all_digits d ->
     exec WEIGHT (pre ++ js "Weight:" ++ ws ++ d ++ 46 :: post) = Some d) /\
  (forall pre post,
     exec WEIGHT pre = None ->
     exec WEIGHT (pre ++ js "Weight: 135.5" ++ post) = Some (js "135")) /\
  parseInt (js "135") = Int 135 /\
  parseExercisesFromMessage bench_text =
    [{| AiChat.exercise := js "Bench Press"; AiChat.sets := Int 3;
        AiChat.reps := Int 10; AiChat.weight := Int 135 |}] /\
  parseInt (js "9007199254740993") = Int 9007199254740992 /\
  parseInt (repeat 57 309) = Infinity false.
Proof.
  split.
  { intros details w H.
    rewrite (exec_find_first WEIGHT [js "Weight"]) in H.
    - apply find_first_capture in H as [Hne Hd].
      split; [assumption|]. split; [assumption|].
      rewrite (parseInt_digits w Hne Hd). split; [reflexivity|].
      intros Hw. apply to_number_exact.
      pose proof (digits_value_nonneg w). lia.
    - apply match_at_WEIGHT_labels. }
  split; [exact exec_WEIGHT_fraction|].
  split.
  { intros pre post H.
    change (js "Weight: 135.5" ++ post)
      with (87 :: (js "eight: 135.5" ++ post)).
    rewrite (exec_WEIGHT_later _ _ H). apply exec_WEIGHT_135_5. }
  repeat split; vm_compute; reflexivity.
Qed.

Lemma weight_capture_integer_digits_witness :
  exec WEIGHT (js "Notes: go heavy. ") = None /\
  exec WEIGHT (js "Notes: go heavy. " ++ js "Weight: 135.5" ++ js " lbs")
    = Some (js "135").
Proof.
  split; [reflexivity|].
  apply (proj1 (proj2 (proj2 weight_capture_integer_digits))). reflexivity.
Defined.


Local Open Scope Z_scope.

(* ===================================================================== *)
(** * Properties of the server actions *)
(* ===================================================================== *)

Lemma rows_of_lookup date db i d :
  rows_of date db !! i = Some d <-> gym_visits db !! i = Some d /\ d = date.
Proof. unfold rows_of. by rewrite map_lookup_filter_Some. Qed.

Lemma select_single_Some date db i :
  data (select_visit_id_single date db) = Some i <->
  rows_of date db = {[i := date]}.
Proof.
  unfold select_visit_id_single. fold (rows_of date db).
  destruct (map_to_list (rows_of date db)) as [|[j d] [|kv l]] eqn:E; cbn.
  - apply map_to_list_empty_iff in E. rewrite E. split; [discriminate|].
    intros H. apply (f_equal (fun m => m !! i)) in H.
    rewrite lookup_empty, lookup_singleton_eq in H. discriminate.
  - assert (Hm : rows_of date db = {[j := d]}).
    { rewrite <- (list_to_map_to_list (rows_of date db)), E. reflexivity. }
    assert (Hd : d = date).
    { assert (H : rows_of date db !! j = Some d)
        by (rewrite Hm; apply lookup_singleton_eq).
      by apply rows_of_lookup in H as [_ ?]. }
    subst d. rewrite Hm. split.
    + by intros [= ->].
    + intros H. apply (f_equal (fun m => m !! i)) in H.
      rewrite lookup_singleton_eq in H.
      apply lookup_singleton_Some in H as [-> _]. reflexivity.
  - split; [discriminate|]. intros H. rewrite H, map_to_list_singleton in E.
    discriminate.
Qed.


Lemma rows_of_empty date db :
  rows_of date db = ∅ <-> date ∉ visit_set db.
Proof.
  unfold visit_set. rewrite not_elem_of_map_img. split.
  - intros H i Hi.
    assert (rows_of date db !! i = Some date) by by apply rows_of_lookup.
    rewrite H, lookup_empty in *. discriminate.
  - intros H. apply map_eq. intros i. rewrite lookup_empty.
    destruct (rows_of date db !! i) as [d|] eqn:E; [|reflexivity].
    apply rows_of_lookup in E as [E ->]. by apply H in E.
Qed.


Section ActionProperties.

Variable gen_id : gmap string Z -> string.
Hypothesis gen_id_fresh : forall m, m !! gen_id m = None.


Lemma toggle_single date db i :
  rows_of date db = {[i := date]} ->
  toggleGymVisit gen_id date db =
  ({| workouts := workouts db; gym_visits := delete i (gym_visits db) |},
   Returned tt).
Proof.
  intros H. apply select_single_Some in H.
  unfold toggleGymVisit. rewrite H. reflexivity.
Qed.

Lemma toggle_cases date db :
  (exists i, rows_of date db = {[i := date]} /\
     (toggleGymVisit gen_id date db).1 =
     {| workouts := workouts db; gym_visits := delete i (gym_visits db) |}) \/
  (data (select_visit_id_single date db) = None /\
     (toggleGymVisit gen_id date db).1 =
     {| workouts := workouts db;
        gym_visits := <[gen_id (gym_visits db) := date]> (gym_visits db) |}).
Proof.
  destruct (data (select_visit_id_single date db)) as [i|] eqn:E.
  - left. exists i. apply select_single_Some in E. split; [assumption|].
    by rewrite (toggle_single _ _ _ E).
  - right. split; [reflexivity|]. unfold toggleGymVisit. rewrite E. reflexivity.
Qed.






End ActionProperties.


(* ===================================================================== *)
(** * Properties of the queries *)
(* ===================================================================== *)

Lemma TimeClip_in_range t : Z.abs t <= maxTime -> TimeClip t = Some t.
Proof. unfold TimeClip. intros H. by destruct (Z.leb_spec (Z.abs t) maxTime); [|lia]. Qed.

Lemma TimeClip_out_of_range t : maxTime < Z.abs t -> TimeClip t = None.
Proof. unfold TimeClip. intros H. by destruct (Z.leb_spec (Z.abs t) maxTime); [lia|]. Qed.

(** [setDate(getDate() - k)] moves a date by [k] local days back. *)
Lemma setDate_back (tz : Z) t k :
  setDate tz (Some t) (number_sub (getDate tz (Some t)) k) =
  TimeClip (t - k * msPerDay).
Proof.
  unfold setDate, number_sub, getDate. cbn [fmap option_fmap option_map].
  f_equal. unfold UTC, MakeDate, LocalTime, Day, TimeWithinDay, msPerDay.
  cbn [offset_at offset_of_local fixed].
  pose proof (Z.div_mod (t + tz) 86400000). lia.
Qed.

Lemma setDate_forward (tz : Z) t k :
  setDate tz (Some t) (number_add (getDate tz (Some t)) k) =
  TimeClip (t + k * msPerDay).
Proof.
  unfold setDate, number_add, getDate. cbn [fmap option_fmap option_map].
  f_equal. unfold UTC, MakeDate, LocalTime, Day, TimeWithinDay, msPerDay.
  cbn [offset_at offset_of_local fixed].
  pose proof (Z.div_mod (t + tz) 86400000). lia.
Qed.

#[local] Instance newer_first_total : Total newer_first.
Proof. intros a b. unfold newer_first. lia. Qed.

#[local] Instance newer_first_trans : Transitive newer_first.
Proof. intros a b c. unfold newer_first. lia. Qed.

(** the day of the month *)
Lemma DateFromTime_range t : 1 <= DateFromTime t <= 31.
Proof.
  unfold DateFromTime, civil_from_days. cbv zeta. cbn [snd].
  generalize (Day t). intros day. Z.div_mod_to_equations. lia.
Qed.

(** a whole number of days taken from the day of the month: the
    subtraction is exact *)
Lemma day_minus_whole d N :
  Z.abs (d - N) < 2 ^ 53 -> day_minus (Some d) (of_Z N) = Some (d - N).
Proof.
  intros H. unfold day_minus, of_Z, sub_from. cbn [mbind option_bind].
  change (0 <=? 0) with true. cbv iota.
  replace (d - N * 2 ^ 0) with (d - N) by (change (2 ^ 0) with 1; lia).
  unfold round_double. rewrite (round53_exact _ H).
  assert (Hbig : 2 ^ 53 < 2 ^ 1024) by (apply Z.pow_lt_mono_r; lia).
  change (2 ^ (0 + 0)) with 1.
  destruct (Z.leb_spec (2 ^ 1024) (Z.abs (d - N) * 1)); [lia|].
  cbn [ToIntegerOrInfinity]. change (0 <=? 0 + 0) with true. cbv iota.
  f_equal. change (2 ^ (0 + 0)) with 1. lia.
Qed.

(** [getRecentWorkouts] of a whole number of days, in any zone: the
    window starts at the same local time of day, that many days of the
    calendar before *)
Lemma getRecentWorkouts_calendar (tz : Zone) now N db :
  Z.abs now <= maxTime ->
  Z.abs N < 2 ^ 52 ->
  getRecentWorkouts tz now (Some N) db =
  match TimeClip (UTC tz (LocalTime tz now - N * msPerDay)) with
  | Some since =>
      Returned (merge_sort newer_first
                  (filter (fun r : Workout => since <= created_at r.2)
                          (map_to_list (workouts db))))
  | None => Threw "RangeError: Invalid time value"
  end.
Proof.
  intros Hnow HN. unfold getRecentWorkouts. cbn [from_option Datatypes.id].
  rewrite (TimeClip_in_range now Hnow).
  unfold getDate. cbn [fmap option_fmap option_map].
  rewrite day_minus_whole.
  - unfold setDate.
    replace (MakeDate (Day (LocalTime tz now) - DateFromTime (LocalTime tz now)
                       + (DateFromTime (LocalTime tz now) - N))
                      (TimeWithinDay (LocalTime tz now)))
      with (LocalTime tz now - N * msPerDay).
    + by destruct (TimeClip _).
    + unfold MakeDate, Day, TimeWithinDay, msPerDay.
      pose proof (Z.div_mod (LocalTime tz now) 86400000). lia.
  - pose proof (DateFromTime_range (LocalTime tz now)).
    change (2 ^ 52) with 4503599627370496 in HN.
    change (2 ^ 53) with 9007199254740992. lia.
Qed.

Lemma whole_days_in_range now N :
  Z.abs now <= maxTime -> 0 <= N -> - maxTime <= now - N * msPerDay ->
  Z.abs N < 2 ^ 52 /\ Z.abs (now - N * msPerDay) <= maxTime.
Proof.
  intros Hnow HN Hsince. change (2 ^ 52) with 4503599627370496.
  unfold maxTime, msPerDay in *. lia.
Qed.

(** what the recent-workouts query returns in a zone of constant offset
    when the start of the window is a date *)
Lemma getRecentWorkouts_Returned (tz : Z) now N db :
  Z.abs now <= maxTime ->
  0 <= N ->
  - maxTime <= now - N * msPerDay ->
  getRecentWorkouts tz now (Some N) db =
  Returned (merge_sort newer_first
              (filter (fun r : Workout => now - N * msPerDay <= created_at r.2)
                      (map_to_list (workouts db)))).
Proof.
  intros Hnow HN Hsince.
  destruct (whole_days_in_range now N Hnow HN Hsince) as [HN' Hin].
  rewrite (getRecentWorkouts_calendar tz now N db Hnow HN').
  unfold UTC, LocalTime. cbn [offset_at offset_of_local fixed].
  replace (now + tz - N * msPerDay - tz) with (now - N * msPerDay) by lia.
  by rewrite (TimeClip_in_range _ Hin).
Qed.

(** ** The week of the attendance grid *)

Lemma setHours_value (tz : Z) t h m s ms :
  setHours tz (Some t) h m s ms =
  TimeClip (Day (t + tz) * msPerDay + MakeTime h m s ms - tz).
Proof. reflexivity. Qed.

Ltac arith :=
  unfold monday_of, WeekDay, Day, MakeTime, msPerDay, maxTime in *;
  Z.div_mod_to_equations; lia.

(** The bounds of the weekly query, in any zone of constant offset: the UTC dates of local
    Monday 00:00:00.000 and of local Sunday 23:59:59.999. *)
Lemma getWeeklyGymVisits_bounds tz now db :
  Z.abs tz <= msPerDay ->
  Z.abs now <= maxTime - 9 * msPerDay ->
  getWeeklyGymVisits tz now db =
  Returned
    (filter (fun r : GymVisit =>
               monday_of tz now + (- tz) / msPerDay <= r.2 /\
               r.2 <= monday_of tz now + 6 + (msPerDay - 1 - tz) / msPerDay)
            (map_to_list (gym_visits db))).
Proof.
  intros Htz Hnow. unfold getWeeklyGymVisits.
  rewrite (TimeClip_in_range now) by arith.
  unfold getDay. cbn [fmap option_fmap option_map mbind option_bind].
  unfold LocalTime. cbn [offset_at fixed].
  set (k := if WeekDay (now + tz) =? 0 then 6 else WeekDay (now + tz) - 1).
  assert (Hk : k = (WeekDay (now + tz) + 6) mod 7).
  { unfold k. destruct (Z.eqb_spec (WeekDay (now + tz)) 0) as [->|Hne];
      [reflexivity|]. arith. }
  assert (Hk6 : 0 <= k <= 6) by (rewrite Hk; arith).
  rewrite setDate_back.
  rewrite (TimeClip_in_range (now - k * msPerDay)) by arith.
  rewrite setHours_value.
  set (t2 := Day (now - k * msPerDay + tz) * msPerDay + MakeTime 0 0 0 0 - tz).
  assert (Ht2 : t2 = (monday_of tz now) * msPerDay - tz).
  { unfold t2. rewrite Hk. clear. arith. }
  rewrite (TimeClip_in_range t2) by (rewrite Ht2; clear - Htz Hnow Hk6 Hk; arith).
  rewrite setDate_forward.
  rewrite (TimeClip_in_range (t2 + 6 * msPerDay))
    by (rewrite Ht2; clear - Htz Hnow Hk6 Hk; arith).
  rewrite setHours_value.
  set (t4 := Day (t2 + 6 * msPerDay + tz) * msPerDay + MakeTime 23 59 59 999 - tz).
  assert (Ht4 : t4 = (monday_of tz now + 6) * msPerDay + (msPerDay - 1) - tz).
  { unfold t4. rewrite Ht2. clear. arith. }
  rewrite (TimeClip_in_range t4) by (rewrite Ht4; clear - Htz Hnow Hk6 Hk; arith).
  unfold toISOString_date, toISOString. cbn [fmap option_fmap option_map].
  unfold select_visits_between. cbn [error data default from_option id].
  assert (Hlo : Day t2 = monday_of tz now + (- tz) / msPerDay).
  { rewrite Ht2. generalize (monday_of tz now). intros M. clear. arith. }
  assert (Hhi : Day t4 = monday_of tz now + 6 + (msPerDay - 1 - tz) / msPerDay).
  { rewrite Ht4. generalize (monday_of tz now). intros M. clear. arith. }
  rewrite Hlo, Hhi. reflexivity.
Qed.


(* ===================================================================== *)
(** * Properties of the chat route *)
(* ===================================================================== *)

Lemma guard_usable v : falsy v || not_string v = false <-> usable_message v.
Proof.
  unfold usable_message. split.
  - intros H. apply orb_false_elim in H as [Hf Hs].
    destruct v as [[| | |s| |]|]; try discriminate Hs.
    destruct s; [discriminate Hf|]. by eexists.
  - intros (s & -> & Hs). destruct s; [done|reflexivity].
Qed.

Section HandlerStatus.

Variable SYSTEM_PROMPT : jsstring.
Variables (tz : Zone) (now : Z) (db : DB) (groq : list ApiMessage -> completion).

Lemma POST_rejected req :
  req <> JNull ->
  falsy (get (js "message") req) || not_string (get (js "message") req) = true ->
  POST SYSTEM_PROMPT tz now db groq (Some req) =
  ({| status := 400; body := JsonBody "Message is required" |}, []).
Proof.
  intros Hreq H. unfold POST. rewrite H. by destruct req.
Qed.

Lemma POST_accepted_status req :
  req <> JNull ->
  falsy (get (js "message") req) || not_string (get (js "message") req) = false ->
  status (POST SYSTEM_PROMPT tz now db groq (Some req)).1 = 200 \/
  status (POST SYSTEM_PROMPT tz now db groq (Some req)).1 = 500.
Proof.
  intros Hreq H. unfold POST. rewrite H.
  destruct req; try done;
    (destruct (getRecentWorkouts tz now (Some 14) db); [|by right];
     destruct (history_messages _); [|by right];
     destruct (groq _); [by left | by right]).
Qed.

End HandlerStatus.

(** ** The stream *)

Lemma encode_empty : encode [] = [].
Proof. reflexivity. Qed.



(** ** The reader of the chat component *)

Lemma update_content_compose aid f g msgs :
  update_content aid g (update_content aid f msgs) =
  update_content aid (fun c => g (f c)) msgs.
Proof.
  unfold update_content. rewrite map_map. apply map_ext. intros m.
  destruct (String.eqb (AiChat.id m) aid) eqn:E; cbn; [|by rewrite E].
  by rewrite E.
Qed.

Lemma update_content_ext aid f g msgs :
  (forall c, f c = g c) -> update_content aid f msgs = update_content aid g msgs.
Proof.
  intros H. unfold update_content. apply map_ext. intros m.
  destruct (String.eqb _ _); [by rewrite H | reflexivity].
Qed.

Lemma update_content_id aid msgs :
  update_content aid (fun c => c ++ []) msgs = msgs.
Proof.
  unfold update_content. rewrite <- (map_id msgs) at 2. apply map_ext.
  intros [i r c]. cbn. destruct (String.eqb _ _); [by rewrite app_nil_r | reflexivity].
Qed.







(* ===================================================================== *)
(** * The claims about the server actions *)
(* ===================================================================== *)

Lemma fresh_id_fresh (m : gmap string Z) : m !! fresh_id m = None.
Proof. apply not_elem_of_dom. unfold fresh_id. apply is_fresh. Qed.

Lemma toggle_returns gen_id date db :
  (toggleGymVisit gen_id date db).2 = Returned tt.
Proof. unfold toggleGymVisit. by destruct (data _). Qed.

Lemma toggle_workouts gen_id date db :
  workouts (toggleGymVisit gen_id date db).1 = workouts db.
Proof. unfold toggleGymVisit. by destruct (data _). Qed.


(** A date with two rows or more: the lookup with [single()] gives no
    data, so the toggle inserts one more row and the date stays in the
    visit set. *)
Lemma toggleGymVisit_duplicates gen_id date db i j :
  i <> j ->
  gym_visits db !! i = Some date -> gym_visits db !! j = Some date ->
  (toggleGymVisit gen_id date db).1 =
    {| workouts := workouts db;
       gym_visits := <[gen_id (gym_visits db) := date]> (gym_visits db) |} /\
  date ∈ visit_set (toggleGymVisit gen_id date db).1.
Proof.
  intros Hne Hi Hj.
  destruct (toggle_cases gen_id date db) as [(k & Hrows & _)|[_ ->]].
  - assert (Hi' : rows_of date db !! i = Some date) by by apply rows_of_lookup.
    assert (Hj' : rows_of date db !! j = Some date) by by apply rows_of_lookup.
    rewrite Hrows in Hi', Hj'.
    apply lookup_singleton_Some in Hi' as [<- _].
    apply lookup_singleton_Some in Hj' as [<- _]. done.
  - split; [reflexivity|]. unfold visit_set. cbn [gym_visits].
    apply elem_of_map_img. eexists. apply lookup_insert_eq.
Qed.

Lemma toggleGymVisit_duplicates_witness :
  "b"%string <> "c"%string /\
  19739 ∈ visit_set (toggleGymVisit fresh_id 19739 twice).1.
Proof.
  split; [discriminate|].
  apply (toggleGymVisit_duplicates fresh_id 19739 twice "b" "c");
    [discriminate | reflexivity | reflexivity].
Defined.






(** C10. Whatever the store and the identifier, [deleteWorkout] returns,
    leaves every workout row under another identifier as it was, leaves
    the gym visits as they were, leaves no row under the identifier, and
    leaves the workouts as they were when no row had the identifier. *)
Theorem deleteWorkout_frame (id : string) (db : DB) :
  (forall j, j <> id ->
     workouts (deleteWorkout id db).1 !! j = workouts db !! j) /\
  gym_visits (deleteWorkout id db).1 = gym_visits db /\
  workouts (deleteWorkout id db).1 !! id = None /\
  (workouts db !! id = None ->
     workouts (deleteWorkout id db).1 = workouts db) /\
  (deleteWorkout id db).2 = Returned tt.
Proof.
  unfold deleteWorkout, delete_workouts_eq_id. cbn.
  split; [intros j Hj; by apply lookup_delete_ne|].
  split; [reflexivity|].
  split; [apply lookup_delete_eq|].
  split; [apply delete_id | reflexivity].
Qed.

Lemma deleteWorkout_frame_witness :
  workouts logbook !! "w9"%string = None /\
  workouts (deleteWorkout "w9" logbook).1 = workouts logbook.
Proof.
  split; [reflexivity|].
  apply (proj1 (proj2 (proj2 (proj2 (deleteWorkout_frame "w9" logbook))))).
  reflexivity.
Defined.

(* ===================================================================== *)
(** * The claims about the queries *)
(* ===================================================================== *)

(** Where local time is UTC, whatever the time of day of [now]: the
    bounds of the weekly query are a Monday and the Sunday six days later,
    the day of [now] lies between them, and the query returns the visit
    rows dated from that Monday to that Sunday and no other. *)
Lemma getWeeklyGymVisits_utc now db :
  Z.abs now <= maxTime - 9 * msPerDay ->
  WeekDay (monday_of 0 now * msPerDay) = 1 /\
  monday_of 0 now <= Day now <= monday_of 0 now + 6 /\
  getWeeklyGymVisits 0 now db =
  Returned
    (filter (fun r : GymVisit => monday_of 0 now <= r.2 /\ r.2 <= monday_of 0 now + 6)
            (map_to_list (gym_visits db))).
Proof.
  intros Hnow. split; [|split].
  - clear. arith.
  - clear. arith.
  - rewrite getWeeklyGymVisits_bounds; [|vm_compute; discriminate|assumption].
    change ((- 0) / msPerDay) with 0. change ((msPerDay - 1 - 0) / msPerDay) with 0.
    by rewrite !Z.add_0_r.
Qed.

Lemma getWeeklyGymVisits_utc_witness :
  Z.abs wednesday <= maxTime - 9 * msPerDay /\
  getWeeklyGymVisits 0 wednesday january =
  Returned
    (filter (fun r : GymVisit =>
               monday_of 0 wednesday <= r.2 /\ r.2 <= monday_of 0 wednesday + 6)
            (map_to_list (gym_visits january))).
Proof.
  split; [vm_compute; discriminate|].
  apply getWeeklyGymVisits_utc. vm_compute. discriminate.
Defined.

(** Where local time is ahead of UTC by less than a day: the lower bound
    of the weekly query is the day before the Monday of the local week of
    [now], so the query returns the visit rows dated from the Sunday
    before that Monday to the Sunday of the week. *)
Lemma getWeeklyGymVisits_east tz now db :
  0 < tz < msPerDay ->
  Z.abs now <= maxTime - 9 * msPerDay ->
  getWeeklyGymVisits tz now db =
  Returned
    (filter (fun r : GymVisit =>
               monday_of tz now - 1 <= r.2 /\ r.2 <= monday_of tz now + 6)
            (map_to_list (gym_visits db))).
Proof.
  intros Htz Hnow.
  rewrite getWeeklyGymVisits_bounds; [|unfold msPerDay in *; lia|assumption].
  replace ((- tz) / msPerDay) with (-1) by (clear - Htz; arith).
  replace ((msPerDay - 1 - tz) / msPerDay) with 0 by (clear - Htz; arith).
  rewrite Z.add_0_r.
  by replace (monday_of tz now + -1) with (monday_of tz now - 1) by lia.
Qed.

Lemma getWeeklyGymVisits_east_witness :
  0 < two_hours_east < msPerDay /\
  Z.abs wednesday <= maxTime - 9 * msPerDay /\
  getWeeklyGymVisits two_hours_east wednesday january =
  Returned
    (filter (fun r : GymVisit =>
               monday_of two_hours_east wednesday - 1 <= r.2 /\
               r.2 <= monday_of two_hours_east wednesday + 6)
            (map_to_list (gym_visits january))).
Proof.
  split; [split; reflexivity|]. split; [vm_compute; discriminate|].
  apply getWeeklyGymVisits_east; [split; reflexivity | vm_compute; discriminate].
Defined.

(** Where local time is behind UTC by less than a day: the upper bound of
    the weekly query is the Monday after the local week of [now]. *)
Lemma getWeeklyGymVisits_west tz now db :
  - msPerDay < tz < 0 ->
  Z.abs now <= maxTime - 9 * msPerDay ->
  getWeeklyGymVisits tz now db =
  Returned
    (filter (fun r : GymVisit =>
               monday_of tz now <= r.2 /\ r.2 <= monday_of tz now + 7)
            (map_to_list (gym_visits db))).
Proof.
  intros Htz Hnow.
  rewrite getWeeklyGymVisits_bounds; [|unfold msPerDay in *; lia|assumption].
  replace ((- tz) / msPerDay) with 0 by (clear - Htz; arith).
  replace ((msPerDay - 1 - tz) / msPerDay) with 1 by (clear - Htz; arith).
  rewrite Z.add_0_r. by replace (monday_of tz now + 6 + 1) with (monday_of tz now + 7) by lia.
Qed.

(** C2. The code at the failing input: on Wednesday 2024-01-17, at noon two
    hours east of Greenwich, the Monday of the week is 2024-01-15 (day
    19737), and the weekly query returns, besides Wednesday's visit, the
    visit of 2024-01-14 (day 19736), the Sunday before that Monday. *)
Theorem getWeeklyGymVisits_returns_previous_sunday :
  monday_of two_hours_east wednesday = 19737 /\
  civil_from_days 19737 = (2024, 1, 15) /\
  civil_from_days 19736 = (2024, 1, 14) /\
  WeekDay (19736 * msPerDay) = 0 /\
  getWeeklyGymVisits two_hours_east wednesday january =
    Returned [("a"%string, 19736); ("b"%string, 19739)].
Proof. repeat split; vm_compute; reflexivity. Qed.

(** C5, as the claim states it, fails in three ways. A window of
    200,000,000 days starts before the earliest date a [Date] holds: the
    date is invalid, [toISOString] throws, and the query returns nothing.
    The window is counted in days of the calendar, at the same local time
    of day: in [berlin] at noon of the day the clocks went forward, the
    window of one day starts 23 hours before, and a workout logged 23
    hours and a half before, within [now - 1] day, is not returned. And
    [setDate] reads the integer part of its argument: on the 17th, a
    window of half a day starts on the 16th at the same time of day, a
    whole day before, and a workout logged 18 hours before, older than
    [now - 0.5] days, is returned. *)
Lemma getRecentWorkouts_not_the_window :
  getRecentWorkouts 0 wednesday (Some 200000000) logbook =
    Threw "RangeError: Invalid time value" /\
  (getRecentWorkouts berlin spring_noon (Some 1)
     (logged_before spring_noon 84600000) = Returned [] /\
   spring_noon - 1 * msPerDay <= spring_noon - 84600000) /\
  (getRecentWorkouts 0 wednesday (Some half)
     (logged_before wednesday 64800000) =
     Returned [("w1"%string, logged_at (wednesday - 64800000))] /\
   wednesday - 64800000 < wednesday - msPerDay / 2).
Proof. repeat split; vm_compute; congruence. Qed.

(** C5, amended. For every whole number of days [N >= 0] such that
    [now - N] days is an instant a [Date] holds (not more than 8.64e15 ms
    before the epoch), in a zone whose offset from UTC, [N] days of the
    calendar before [now] at the same local time of day, is the offset at
    [now] (as it always is in a zone without daylight saving time), the
    query returns, and the rows returned are
    exactly the workout rows whose creation instant is at least [now - N]
    days, each once, in descending order of the creation instant; leaving
    the argument out is asking for 14 days. *)
Theorem getRecentWorkouts_window (tz : Zone) now N db :
  Z.abs now <= maxTime ->
  0 <= N ->
  - maxTime <= now - N * msPerDay ->
  offset_of_local tz (LocalTime tz now - N * msPerDay) = offset_at tz now ->
  exists rows,
    getRecentWorkouts tz now (Some N) db = Returned rows /\
    (forall w, w ∈ rows <->
       workouts db !! w.1 = Some w.2 /\ now - N * msPerDay <= created_at w.2) /\
    NoDup rows /\
    StronglySorted newer_first rows /\
    getRecentWorkouts tz now None db = getRecentWorkouts tz now (Some 14) db.
Proof.
  intros Hnow HN Hsince Hoffset.
  destruct (whole_days_in_range now N Hnow HN Hsince) as [HN' Hin].
  eexists. split.
  { rewrite (getRecentWorkouts_calendar tz now N db Hnow HN').
    unfold UTC. rewrite Hoffset. unfold LocalTime.
    replace (now + offset_at tz now - N * msPerDay - offset_at tz now)
      with (now - N * msPerDay) by lia.
    by rewrite (TimeClip_in_range _ Hin). }
  split; [|split; [|split]].
  - intros w. rewrite merge_sort_Permutation, list_elem_of_filter.
    destruct w as [i r]. rewrite elem_of_map_to_list. cbn. tauto.
  - rewrite merge_sort_Permutation. apply NoDup_filter, NoDup_map_to_list.
  - apply StronglySorted_merge_sort; apply _.
  - reflexivity.
Qed.

Lemma getRecentWorkouts_window_witness :
  Z.abs wednesday <= maxTime /\ 0 <= 2 /\
  - maxTime <= wednesday - 2 * msPerDay /\
  offset_of_local berlin (LocalTime berlin wednesday - 2 * msPerDay)
    = offset_at berlin wednesday /\
  exists rows,
    getRecentWorkouts berlin wednesday (Some 2) logbook = Returned rows /\
    (forall w, w ∈ rows <->
       workouts logbook !! w.1 = Some w.2 /\
       wednesday - 2 * msPerDay <= created_at w.2) /\
    NoDup rows /\
    StronglySorted newer_first rows /\
    getRecentWorkouts berlin wednesday None logbook =
    getRecentWorkouts berlin wednesday (Some 14) logbook.
Proof.
  split; [vm_compute; discriminate|]. split; [lia|].
  split; [vm_compute; discriminate|]. split; [reflexivity|].
  apply getRecentWorkouts_window; [vm_compute; discriminate | lia |
                                   vm_compute; discriminate | reflexivity].
Defined.

(** the window of two days holds the squat and not the plank, three days
    old; the default window holds both, the newer first *)
Lemma getRecentWorkouts_examples :
  getRecentWorkouts 0 wednesday (Some 2) logbook
    = Returned [("w1"%string, squat_row)] /\
  getRecentWorkouts 0 wednesday None logbook
    = Returned [("w1"%string, squat_row); ("w2"%string, plank_row)].
Proof. split; vm_compute; reflexivity. Qed.

(* ===================================================================== *)
(** * The claims about the chat route *)
(* ===================================================================== *)

Lemma guard_rejected v :
  falsy v || not_string v = true <-> rejected_message v.
Proof.
  unfold rejected_message. split.
  - destruct v as [j|]; [|by left]. intros H.
    destruct j as [| | |s| |];
      try (right; left; eexists; split; [reflexivity | discriminate]).
    destruct s; [by right; right | discriminate H].
  - intros [H|[(j & H & Hj)|H]]; subst v; [reflexivity| |reflexivity].
    destruct j; try apply orb_true_r. by destruct (Hj s).
Qed.

Lemma rejected_not_usable v : rejected_message v <-> ~ usable_message v.
Proof.
  rewrite <- guard_rejected, <- guard_usable.
  destruct (falsy v || not_string v); split; done.
Qed.

Section HandlerStream.

Variable SYSTEM_PROMPT : jsstring.
Variables (tz : Zone) (now : Z) (db : DB) (groq : list ApiMessage -> completion).

(** what the handler sends the model and answers, when every step
    succeeds *)
Lemma POST_streams req s rows previous stream :
  req <> JNull ->
  get (js "message") req = Some (JString s) -> s <> [] ->
  getRecentWorkouts tz now (Some 14) db = Returned rows ->
  history_messages (get (js "history") req) = Some previous ->
  groq ([{| ChatRoute.role := Some (JString (js "system"));
            ChatRoute.content :=
              Some (JString (SYSTEM_PROMPT ++ [10%N; 10%N]
                               ++ formatWorkoutsForContext tz rows)) |}]
          ++ previous ++
          [{| ChatRoute.role := Some (JString (js "user"));
              ChatRoute.content := Some (JString s) |}]) = Returned stream ->
  POST SYSTEM_PROMPT tz now db groq (Some req) =
  ({| status := 200; body := StreamBody (start stream) |},
   [GetRecentWorkouts 14;
    CreateCompletion "llama-3.3-70b-versatile"
      ([{| ChatRoute.role := Some (JString (js "system"));
           ChatRoute.content :=
             Some (JString (SYSTEM_PROMPT ++ [10%N; 10%N]
                              ++ formatWorkoutsForContext tz rows)) |}]
         ++ previous ++
         [{| ChatRoute.role := Some (JString (js "user"));
             ChatRoute.content := Some (JString s) |}])
      1024]).
Proof.
  intros Hreq Hm Hs Hrows Hprev Hgroq. unfold POST.
  assert (Hg : falsy (get (js "message") req)
               || not_string (get (js "message") req) = false).
  { apply guard_usable. exists s. by rewrite Hm. }
  rewrite Hg, Hrows, Hprev, Hm, Hgroq. by destruct req.
Qed.

End HandlerStream.

(** C4, as the claim states it, fails: the request [{ message: '' }] has a
    message, and the message is text, and the answer is 400. *)
Lemma POST_empty_message_rejected :
  get (js "message") empty_request = Some (JString []) /\
  POST [] 0 wednesday logbook silent_model (Some empty_request) =
  ({| status := 400; body := JsonBody "Message is required" |}, []).
Proof. split; vm_compute; reflexivity. Qed.

(** C4, amended. For every request whose body is not null, the handler
    answers 400 exactly when the message is absent, is not a string, or is
    the empty string; it then answers at once, with the error body and no
    event: no read of the store, no call of the model, no log. A message
    that is a string and not empty is never answered 400: the answer is
    200, or 500 when a later step fails. *)
Theorem POST_client_error SYSTEM_PROMPT tz now db groq req :
  req <> JNull ->
  (status (POST SYSTEM_PROMPT tz now db groq (Some req)).1 = 400 <->
   rejected_message (get (js "message") req)) /\
  (status (POST SYSTEM_PROMPT tz now db groq (Some req)).1 = 400 ->
   POST SYSTEM_PROMPT tz now db groq (Some req) =
   ({| status := 400; body := JsonBody "Message is required" |}, [])) /\
  (usable_message (get (js "message") req) ->
   status (POST SYSTEM_PROMPT tz now db groq (Some req)).1 = 200 \/
   status (POST SYSTEM_PROMPT tz now db groq (Some req)).1 = 500).
Proof.
  intros Hreq.
  destruct (falsy (get (js "message") req) || not_string (get (js "message") req))
    eqn:Hg.
  - pose proof (POST_rejected SYSTEM_PROMPT tz now db groq req Hreq Hg) as HP.
    split; [|split].
    + rewrite HP. split; [intros _; by apply guard_rejected | reflexivity].
    + intros _. exact HP.
    + intros Hu. apply guard_usable in Hu. congruence.
  - pose proof (POST_accepted_status SYSTEM_PROMPT tz now db groq req Hreq Hg) as HP.
    split; [|split].
    + split.
      * intros H4. destruct HP as [HP|HP]; rewrite HP in H4; discriminate.
      * intros Hr. apply guard_rejected in Hr. congruence.
    + intros H4. destruct HP as [HP|HP]; rewrite HP in H4; discriminate.
    + intros _. exact HP.
Qed.

Lemma POST_client_error_witness :
  hi_request <> JNull /\
  (status (POST [] 0 wednesday logbook silent_model (Some hi_request)).1 = 400 <->
   rejected_message (get (js "message") hi_request)).
Proof.
  split; [discriminate|].
  apply (POST_client_error [] 0 wednesday logbook silent_model hi_request).
  discriminate.
Defined.

Lemma notes_suffix_truthy w :
  (if notes_truthy (notes w.2)
   then js " (" ++ default [] (notes w.2) ++ js ")" else []) = notes_suffix w.
Proof. unfold notes_suffix. by destruct (notes w.2) as [[|c n]|]. Qed.

Lemma format_workout_shape tz w :
  format_workout tz w = js "- " ++ entry_shape tz w ++ notes_suffix w.
Proof.
  unfold format_workout, entry_shape. rewrite notes_suffix_truthy.
  by rewrite <- !app_assoc.
Qed.

Lemma notes_suffix_present w :
  (notes_present w ->
   exists n, notes w.2 = Some n /\ notes_suffix w = js " (" ++ n ++ js ")") /\
  (~ notes_present w -> notes_suffix w = []).
Proof.
  unfold notes_present, notes_suffix. split.
  - intros (n & -> & Hn). exists n. by destruct n.
  - intros H. destruct (notes w.2) as [[|c n]|]; try reflexivity.
    destruct H. by eexists.
Qed.

(** C8. The context of no entries is the fixed sentence; the context of
    one entry or more is the heading, then one line an entry, in their
    order, the lines separated by a line feed; the line of an entry is a
    list marker, the shape
    [<weekday date>: <exercise> - <sets>x<reps> @ <weight>lbs], and after it
    [ (<notes>)] when the entry has notes that are not empty, nothing
    otherwise; and the handler, when it accepts a request, puts into the
    system message the context of what the recent-workouts query gives for
    14 days. The two sample rows give the lines at the end. *)
Theorem formatWorkoutsForContext_lines tz :
  formatWorkoutsForContext tz [] =
    js "The user hasn't logged any workouts in the past 2 weeks." /\
  (forall w ws,
     formatWorkoutsForContext tz (w :: ws) =
     js "Recent workouts (last 2 weeks):" ++ [10%N]
       ++ join [10%N] (map (format_workout tz) (w :: ws))) /\
  (forall w,
     format_workout tz w = js "- " ++ entry_shape tz w ++ notes_suffix w) /\
  (forall w,
     (notes_present w ->
      exists n, notes w.2 = Some n /\ notes_suffix w = js " (" ++ n ++ js ")") /\
     (~ notes_present w -> notes_suffix w = [])) /\
  (forall SYSTEM_PROMPT now db groq req s rows previous stream,
     req <> JNull ->
     get (js "message") req = Some (JString s) -> s <> [] ->
     getRecentWorkouts tz now (Some 14) db = Returned rows ->
     history_messages (get (js "history") req) = Some previous ->
     groq ([{| ChatRoute.role := Some (JString (js "system"));
               ChatRoute.content :=
                 Some (JString (SYSTEM_PROMPT ++ [10%N; 10%N]
                                  ++ formatWorkoutsForContext tz rows)) |}]
             ++ previous ++
             [{| ChatRoute.role := Some (JString (js "user"));
                 ChatRoute.content := Some (JString s) |}]) = Returned stream ->
     (POST SYSTEM_PROMPT tz now db groq (Some req)).2 =
     [GetRecentWorkouts 14;
      CreateCompletion "llama-3.3-70b-versatile"
        ([{| ChatRoute.role := Some (JString (js "system"));
             ChatRoute.content :=
               Some (JString (SYSTEM_PROMPT ++ [10%N; 10%N]
                                ++ formatWorkoutsForContext tz rows)) |}]
           ++ previous ++
           [{| ChatRoute.role := Some (JString (js "user"));
               ChatRoute.content := Some (JString s) |}])
        1024]) /\
  formatWorkoutsForContext 0 [("w1"%string, squat_row); ("w2"%string, plank_row)] =
    js "Recent workouts (last 2 weeks):" ++ [10%N]
      ++ js "- Wed, Jan 17: Squat - 3x10 @ 135lbs (felt good)" ++ [10%N]
      ++ js "- Sun, Jan 14: Plank - 3x1 @ 0lbs".
Proof.
  split; [reflexivity|]. split; [reflexivity|].
  split; [apply format_workout_shape|]. split; [apply notes_suffix_present|].
  split; [|vm_compute; reflexivity].
  intros. by erewrite POST_streams.
Qed.

Lemma formatWorkoutsForContext_lines_witness :
  notes_present ("w1"%string, squat_row) /\
  exists n,
    notes squat_row = Some n /\
    notes_suffix ("w1"%string, squat_row) = js " (" ++ n ++ js ")".
Proof.
  assert (H : notes_present ("w1"%string, squat_row)).
  { exists (js "felt good"). split; [reflexivity | discriminate]. }
  split; [exact H|].
  exact (proj1 (proj1 (proj2 (proj2 (proj2
           (formatWorkoutsForContext_lines 0)))) ("w1"%string, squat_row)) H).
Defined.

(* ===================================================================== *)
(** * The claim about the relay *)
(* ===================================================================== *)



Lemma update_content_other aid f msgs :
  (forall m, m ∈ msgs -> AiChat.id m <> aid) ->
  update_content aid f msgs = msgs.
Proof.
  intros H. unfold update_content. rewrite <- (map_id msgs) at 2.
  apply map_ext_in. intros m Hm. apply list_elem_of_In in Hm.
  apply H in Hm. apply String.eqb_neq in Hm. by rewrite Hm.
Qed.






(* ===================================================================== *)
(** * More about the store *)
(* ===================================================================== *)

Lemma fresh_workout_id_fresh (m : gmap string WorkoutRow) :
  m !! fresh_workout_id m = None.
Proof. apply not_elem_of_dom. unfold fresh_workout_id. apply is_fresh. Qed.

Lemma getWorkouts_value db :
  getWorkouts db = Returned (merge_sort newer_first (map_to_list (workouts db))).
Proof. reflexivity. Qed.

(** [getWorkouts] returns, and what it returns are the rows of the table,
    all of them and each once, a newer row never after an older one. *)
Theorem getWorkouts_newest_first db :
  exists rows,
    getWorkouts db = Returned rows /\
    (forall w, w ∈ rows <-> workouts db !! w.1 = Some w.2) /\
    NoDup rows /\
    length rows = size (workouts db) /\
    StronglySorted newer_first rows.
Proof.
  eexists. split; [apply getWorkouts_value|].
  split; [|split; [|split]].
  - intros [i r]. by rewrite merge_sort_Permutation, elem_of_map_to_list.
  - rewrite merge_sort_Permutation. apply NoDup_map_to_list.
  - by rewrite merge_sort_Permutation, length_map_to_list.
  - apply StronglySorted_merge_sort; apply _.
Qed.





Lemma insert_rows_frame (gen_id : gmap string WorkoutRow -> string) now rows :
  (forall m, m !! gen_id m = None) ->
  forall db,
    gym_visits (foldl (insert_row gen_id now) db rows) = gym_visits db /\
    size (workouts (foldl (insert_row gen_id now) db rows))
      = (size (workouts db) + length rows)%nat /\
    (forall i r, workouts db !! i = Some r ->
       workouts (foldl (insert_row gen_id now) db rows) !! i = Some r).
Proof.
  intros Hfresh. induction rows as [|data rows IH]; intros db.
  - cbn. repeat split; [lia | done].
  - cbn [foldl length]. destruct (IH (insert_row gen_id now db data)) as (Hv & Hs & Hk).
    split; [by rewrite Hv|]. split.
    + rewrite Hs. cbn [insert_row workouts].
      rewrite map_size_insert_None by apply Hfresh. lia.
    + intros i r Hi. apply Hk. cbn [insert_row workouts].
      rewrite lookup_insert_ne; [assumption|].
      intros <-. by rewrite Hfresh in Hi.
Qed.

(** [addWorkouts], with a store that gives each new row an identifier not
    in use: the call returns; the table grows by as many rows as the array
    holds and every row there was stays as it was; the gym visits are as
    they were; a batch of one row is [addWorkout]; and a batch does what
    its two parts do one after the other. *)
Theorem addWorkouts_batch
    (gen_id : gmap string WorkoutRow -> string) now rows more db :
  (forall m, m !! gen_id m = None) ->
  (addWorkouts gen_id now rows db).2 = Returned tt /\
  size (workouts (addWorkouts gen_id now rows db).1)
    = (size (workouts db) + length rows)%nat /\
  (forall i r, workouts db !! i = Some r ->
     workouts (addWorkouts gen_id now rows db).1 !! i = Some r) /\
  gym_visits (addWorkouts gen_id now rows db).1 = gym_visits db /\
  (forall data, addWorkouts gen_id now [data] db = addWorkout gen_id now data db) /\
  (addWorkouts gen_id now (rows ++ more) db).1 =
    (addWorkouts gen_id now more (addWorkouts gen_id now rows db).1).1.
Proof.
  intros Hfresh.
  destruct (insert_rows_frame gen_id now rows Hfresh db) as (Hv & Hs & Hk).
  split; [reflexivity|]. split; [exact Hs|]. split; [exact Hk|].
  split; [exact Hv|]. split; [reflexivity|].
  cbn [addWorkouts insert_workouts fst]. apply foldl_app.
Qed.

Lemma addWorkouts_batch_witness :
  (forall m, m !! fresh_workout_id m = None) /\
  size (workouts (addWorkouts fresh_workout_id later
                    [bench_insert; bench_insert] logbook).1)
    = (size (workouts logbook) + 2)%nat.
Proof.
  split; [exact fresh_workout_id_fresh|].
  exact (proj1 (proj2 (addWorkouts_batch fresh_workout_id later
                         [bench_insert; bench_insert] [] logbook
                         fresh_workout_id_fresh))).
Defined.

(** Deleting the workout that was just added, with a store that gave it
    an identifier not in use, gives back the store as it was. *)
Theorem addWorkout_deleteWorkout
    (gen_id : gmap string WorkoutRow -> string) now data db :
  (forall m, m !! gen_id m = None) ->
  (deleteWorkout (gen_id (workouts db)) (addWorkout gen_id now data db).1).1 = db.
Proof.
  intros Hfresh. destruct db as [w v].
  cbn. f_equal. apply delete_insert_id, Hfresh.
Qed.

Lemma addWorkout_deleteWorkout_witness :
  (forall m, m !! fresh_workout_id m = None) /\
  (deleteWorkout (fresh_workout_id (workouts logbook))
     (addWorkout fresh_workout_id later bench_insert logbook).1).1 = logbook.
Proof.
  split; [exact fresh_workout_id_fresh|].
  exact (addWorkout_deleteWorkout fresh_workout_id later bench_insert logbook
           fresh_workout_id_fresh).
Defined.

(** After [deleteWorkout(id)] the list of [getWorkouts] holds the rows it
    held before except the row of that identifier, still newest first;
    and deleting the same identifier again changes nothing more. *)
Theorem deleteWorkout_listed id db :
  exists before after,
    getWorkouts db = Returned before /\
    getWorkouts (deleteWorkout id db).1 = Returned after /\
    (forall w, w ∈ after <-> w ∈ before /\ w.1 <> id) /\
    NoDup after /\
    StronglySorted newer_first after /\
    (deleteWorkout id (deleteWorkout id db).1).1 = (deleteWorkout id db).1.
Proof.
  eexists _, _. split; [apply getWorkouts_value|].
  split; [apply getWorkouts_value|].
  cbn [deleteWorkout delete_workouts_eq_id fst workouts error].
  split; [|split; [|split]].
  - intros [i r]. rewrite !merge_sort_Permutation, !elem_of_map_to_list.
    rewrite lookup_delete_Some. cbn. intuition congruence.
  - rewrite merge_sort_Permutation. apply NoDup_map_to_list.
  - apply StronglySorted_merge_sort; apply _.
  - cbn. f_equal. apply delete_id, lookup_delete_eq.
Qed.

(** A longer window of [getRecentWorkouts] holds every row of a shorter
    one, and every row of a window is a row of [getWorkouts]: for whole
    numbers of days [0 <= N <= N'] whose window starts are dates. *)
Theorem getRecentWorkouts_monotone (tz : Z) now N N' db :
  Z.abs now <= maxTime ->
  0 <= N <= N' ->
  - maxTime <= now - N' * msPerDay ->
  exists short long all,
    getRecentWorkouts tz now (Some N) db = Returned short /\
    getRecentWorkouts tz now (Some N') db = Returned long /\
    getWorkouts db = Returned all /\
    (forall w, w ∈ short -> w ∈ long) /\
    (forall w, w ∈ long -> w ∈ all).
Proof.
  intros Hnow HN Hsince.
  eexists _, _, _.
  split; [apply getRecentWorkouts_Returned; [assumption | lia |];
          unfold msPerDay, maxTime in *; lia|].
  split; [apply getRecentWorkouts_Returned; [assumption | lia |];
          unfold msPerDay, maxTime in *; lia|].
  split; [apply getWorkouts_value|].
  split; intros w; rewrite !merge_sort_Permutation, !list_elem_of_filter.
  - intros [H1 H2]. split; [|assumption]. unfold msPerDay in *. lia.
  - tauto.
Qed.

Lemma getRecentWorkouts_monotone_witness :
  Z.abs wednesday <= maxTime /\ 0 <= 2 <= 14 /\
  - maxTime <= wednesday - 14 * msPerDay /\
  exists short long all,
    getRecentWorkouts 0 wednesday (Some 2) logbook = Returned short /\
    getRecentWorkouts 0 wednesday (Some 14) logbook = Returned long /\
    getWorkouts logbook = Returned all /\
    (forall w, w ∈ short -> w ∈ long) /\
    (forall w, w ∈ long -> w ∈ all).
Proof.
  split; [vm_compute; discriminate|]. split; [lia|].
  split; [vm_compute; discriminate|].
  apply getRecentWorkouts_monotone;
    [vm_compute; discriminate | lia | vm_compute; discriminate].
Defined.

Lemma getWeeklyGymVisits_west_witness :
  - msPerDay < - two_hours_east < 0 /\
  Z.abs wednesday <= maxTime - 9 * msPerDay /\
  getWeeklyGymVisits (- two_hours_east) wednesday january =
  Returned
    (filter (fun r : GymVisit =>
               monday_of (- two_hours_east) wednesday <= r.2 /\
               r.2 <= monday_of (- two_hours_east) wednesday + 7)
            (map_to_list (gym_visits january))).
Proof.
  split; [split; reflexivity|]. split; [vm_compute; discriminate|].
  apply getWeeklyGymVisits_west; [split; reflexivity | vm_compute; discriminate].
Defined.

(** ** Toggles of other dates *)

Section ToggleFrame.

Variable gen_id : gmap string Z -> string.
Hypothesis gen_id_fresh : forall m, m !! gen_id m = None.

(** a toggle of a date leaves the rows of every other date as they are *)
Lemma toggle_rows_of_other date other db :
  other <> date ->
  rows_of other (toggleGymVisit gen_id date db).1 = rows_of other db.
Proof.
  intros Hne.
  destruct (toggle_cases gen_id date db) as [(i & Hrows & ->)|[_ ->]];
    unfold rows_of; cbn [gym_visits].
  - rewrite map_filter_delete. apply delete_id.
    destruct (filter _ (gym_visits db) !! i) as [d|] eqn:E; [|reflexivity].
    apply map_lookup_filter_Some in E as [E Hd]. cbn in Hd. subst d.
    assert (H : rows_of date db !! i = Some date)
      by (rewrite Hrows; apply lookup_singleton_eq).
    apply rows_of_lookup in H as [H _]. congruence.
  - by rewrite map_filter_insert_False, delete_id by (done || apply gen_id_fresh).
Qed.

Lemma toggle_member_other date other db :
  other <> date ->
  other ∈ visit_set (toggleGymVisit gen_id date db).1 <-> other ∈ visit_set db.
Proof.
  intros Hne.
  assert (H : other ∉ visit_set (toggleGymVisit gen_id date db).1 <->
              other ∉ visit_set db).
  { rewrite <- !rows_of_empty. by rewrite toggle_rows_of_other. }
  destruct (decide (other ∈ visit_set (toggleGymVisit gen_id date db).1)),
    (decide (other ∈ visit_set db)); tauto.
Qed.

(** after a toggle the date is in the visit set unless it had exactly one
    row *)
Lemma toggle_member_self date db :
  date ∈ visit_set (toggleGymVisit gen_id date db).1 <->
  ~ exists i, rows_of date db = {[i := date]}.
Proof.
  destruct (toggle_cases gen_id date db) as [(i & Hrows & ->)|[Hnone ->]].
  - assert (Hn : date ∉ visit_set
                     {| workouts := workouts db;
                        gym_visits := delete i (gym_visits db) |}).
    { apply rows_of_empty. unfold rows_of. cbn [gym_visits].
      rewrite map_filter_delete. fold (rows_of date db). rewrite Hrows.
      apply delete_singleton_eq. }
    split; [done | intros H; destruct H; eauto].
  - split.
    + intros _ [i Hi]. apply select_single_Some in Hi. congruence.
    + intros _. unfold visit_set. cbn [gym_visits].
      apply elem_of_map_img. eexists. apply lookup_insert_eq.
Qed.

End ToggleFrame.

(** A toggle of a date changes nothing about any other date: the rows of
    the other date are as they were, so the other date is in the visit set
    afterwards exactly when it was before; and the workouts are as they
    were. This holds in every state of the store that gives new rows
    identifiers not in use. *)
Theorem toggleGymVisit_other_dates (gen_id : gmap string Z -> string) :
  (forall m, m !! gen_id m = None) ->
  forall date other db,
    other <> date ->
    rows_of other (toggleGymVisit gen_id date db).1 = rows_of other db /\
    (other ∈ visit_set (toggleGymVisit gen_id date db).1
     <-> other ∈ visit_set db) /\
    workouts (toggleGymVisit gen_id date db).1 = workouts db.
Proof.
  intros Hfresh date other db Hne.
  split; [by apply toggle_rows_of_other|].
  split; [by apply toggle_member_other | apply toggle_workouts].
Qed.

Lemma toggleGymVisit_other_dates_witness :
  (forall m, m !! fresh_id m = None) /\
  19736 <> 19739 /\
  rows_of 19736 (toggleGymVisit fresh_id 19739 january).1 = rows_of 19736 january.
Proof.
  split; [exact fresh_id_fresh|]. split; [discriminate|].
  apply (toggleGymVisit_other_dates fresh_id fresh_id_fresh 19739 19736 january).
  discriminate.
Defined.

(** Toggles of two different dates can be made in either order: the visit
    set is the same afterwards (the identifiers of the rows may differ). *)
Theorem toggleGymVisit_commute (gen_id : gmap string Z -> string) :
  (forall m, m !! gen_id m = None) ->
  forall a b db,
    a <> b ->
    visit_set (toggleGymVisit gen_id a (toggleGymVisit gen_id b db).1).1 =
    visit_set (toggleGymVisit gen_id b (toggleGymVisit gen_id a db).1).1.
Proof.
  intros Hfresh a b db Hne. apply set_eq. intros d.
  destruct (decide (d = a)) as [->|Hda]; [|destruct (decide (d = b)) as [->|Hdb]].
  - rewrite toggle_member_self, toggle_rows_of_other by done.
    rewrite toggle_member_other by done. by rewrite toggle_member_self.
  - rewrite toggle_member_other by done.
    rewrite !toggle_member_self. by rewrite toggle_rows_of_other.
  - by rewrite !toggle_member_other.
Qed.

Lemma toggleGymVisit_commute_witness :
  (forall m, m !! fresh_id m = None) /\
  19736 <> 19740 /\
  visit_set (toggleGymVisit fresh_id 19736
               (toggleGymVisit fresh_id 19740 january).1).1 =
  visit_set (toggleGymVisit fresh_id 19740
               (toggleGymVisit fresh_id 19736 january).1).1.
Proof.
  split; [exact fresh_id_fresh|]. split; [discriminate|].
  apply (toggleGymVisit_commute fresh_id fresh_id_fresh). discriminate.
Defined.

(* ===================================================================== *)
(** * The attendance grid *)
(* ===================================================================== *)





Lemma initial_visited_elem (rows : list GymVisit) d :
  d ∈ initial_visited rows <-> exists i, (i, d) ∈ rows.
Proof.
  unfold initial_visited. rewrite elem_of_list_to_set, list_elem_of_fmap. split.
  - intros ([i d'] & -> & H). by exists i.
  - intros [i H]. by exists (i, d).
Qed.





Section GridToggle.

Variable gen_id : gmap string Z -> string.
Hypothesis gen_id_fresh : forall m, m !! gen_id m = None.



End GridToggle.




(** Where the date clicked has two rows or more, the click leaves the
    store with a row for the date and the grid, if it showed the date as
    visited, shows it as not visited: the agreement is lost. *)
Theorem handleToggle_duplicates_disagree (gen_id : gmap string Z -> string) :
  forall date st i j,
    i <> j ->
    gym_visits (grid_store st) !! i = Some date ->
    gym_visits (grid_store st) !! j = Some date ->
    date ∈ visitedDates st ->
    (date ∉ visitedDates (handleToggle gen_id date st)) /\
    (date ∈ visit_set (grid_store (handleToggle gen_id date st))).
Proof.
  intros date st i j Hne Hi Hj Hin. unfold handleToggle.
  pose proof (toggle_returns gen_id date (grid_store st)) as Hret.
  assert (Hs : date ∈ visit_set (toggleGymVisit gen_id date (grid_store st)).1).
  { destruct (toggle_cases gen_id date (grid_store st))
      as [(k & Hrows & _)|[_ ->]].
    - assert (Hi' : rows_of date (grid_store st) !! i = Some date)
        by by apply rows_of_lookup.
      assert (Hj' : rows_of date (grid_store st) !! j = Some date)
        by by apply rows_of_lookup.
      rewrite Hrows in Hi', Hj'.
      apply lookup_singleton_Some in Hi' as [<- _].
      apply lookup_singleton_Some in Hj' as [<- _]. done.
    - unfold visit_set. cbn [gym_visits]. apply elem_of_map_img.
      eexists. apply lookup_insert_eq. }
  destruct (toggleGymVisit gen_id date (grid_store st)) as [db' o].
  cbn in Hret, Hs. subst o. cbn [visitedDates grid_store].
  split; [|assumption].
  destruct (decide (date ∈ visitedDates st)); [|done].
  rewrite elem_of_difference, elem_of_singleton. tauto.
Qed.

Lemma handleToggle_duplicates_disagree_witness :
  "b"%string <> "c"%string /\
  (19739 ∈ visitedDates twice_grid) /\
  (19739 ∉ visitedDates (handleToggle fresh_id 19739 twice_grid)) /\
  (19739 ∈ visit_set (grid_store (handleToggle fresh_id 19739 twice_grid))).
Proof.
  assert (Hin : 19739 ∈ visitedDates twice_grid).
  { apply initial_visited_elem. exists "b"%string.
    apply elem_of_map_to_list. reflexivity. }
  split; [discriminate|]. split; [exact Hin|].
  apply (handleToggle_duplicates_disagree fresh_id 19739 twice_grid "b" "c");
    [discriminate | reflexivity | reflexivity | exact Hin].
Defined.

(* ===================================================================== *)
(** * More about the chat component *)
(* ===================================================================== *)

(** ** What the extractor emits *)

Lemma split_from_cons re s k acc : exists p t, split_from re s k acc = p :: t.
Proof.
  revert k acc. induction s as [|c s IH]; intros k acc; [by eexists _, _|].
  cbn [split_from]. destruct k as [|k]; [|apply IH].
  destruct (match_at re (c :: s)) as [[g rest]|]; [|apply IH].
  destruct (_ <? _)%nat; [by eexists _, _|].
  destruct acc; [apply IH | by eexists _, _].
Qed.

Definition names_ok (l : list jsstring) : Prop :=
  Forall (fun b : jsstring * jsstring => b.1 <> [] /\ star_free b.1)
         (blocks (drop 1 l)).

Lemma names_ok_split_from n : forall s acc,
  (length s <= n)%nat -> names_ok (split_from BOLD s 0 acc).
Proof.
  unfold names_ok.
  induction n as [|n IH]; intros s acc Hn.
  - destruct s; [|cbn in Hn; lia]. constructor.
  - destruct s as [|c s]; [constructor|].
    cbn [split_from].
    destruct (match_at BOLD (c :: s)) as [[g rest]|] eqn:E.
    + apply match_at_BOLD in E as (Hs & Hg & Hstar).
      assert (Hlen : length (c :: s) = (4 + length g + length rest)%nat).
      { rewrite Hs. cbn. rewrite !length_app. cbn. lia. }
      destruct (Nat.ltb_spec (length rest) (length (c :: s))); [|lia].
      rewrite split_from_skip.
      assert (Hd : drop (length (c :: s) - length rest - 1) s = rest).
      { rewrite Hlen. cbn in Hs. injection Hs as -> ->.
        replace (42 :: g ++ 42 :: 42 :: rest)%N
          with ((42 :: g ++ [42; 42]) ++ rest)%N
          by (cbn; by rewrite <- app_assoc).
        replace (4 + length g + length rest - length rest - 1)%nat
          with (length (42 :: g ++ [42; 42])%N)
          by (cbn; rewrite length_app; cbn; lia).
        apply drop_app_length. }
      rewrite Hd. cbn [drop].
      specialize (IH rest [] ltac:(cbn in Hlen; lia)).
      destruct (split_from_cons BOLD rest 0 []) as (p & t & Ht).
      rewrite Ht in IH |- *. cbn [blocks drop] in IH |- *.
      constructor; [by split | exact IH].
    + apply IH. cbn in Hn. lia.
Qed.

Lemma names_ok_split content : names_ok (split BOLD content).
Proof.
  destruct content as [|c s]; [constructor|].
  unfold split. by apply (names_ok_split_from (length (c :: s))).
Qed.

Lemma drop_while_Forall (P : N -> Prop) p s :
  Forall P s -> Forall P (drop_while p s).
Proof.
  induction 1 as [|c s Hc Hs IH]; cbn; [constructor|].
  destruct (p c); [assumption | by constructor].
Qed.

Lemma trim_Forall (P : N -> Prop) s : Forall P s -> Forall P (trim s).
Proof.
  intros H. unfold trim.
  by apply Forall_rev, drop_while_Forall, Forall_rev, drop_while_Forall.
Qed.

Lemma drop_while_head p s c t : drop_while p s = c :: t -> p c = false.
Proof.
  induction s as [|d s IH]; cbn; [discriminate|].
  destruct (p d) eqn:E; [assumption|]. by intros [= <- _].
Qed.

Lemma drop_while_id p c t : p c = false -> drop_while p (c :: t) = c :: t.
Proof. intros H. cbn. by rewrite H. Qed.

(** a trimmed text has no white space at either end: trimming it again
    changes nothing *)
Lemma trim_trim s : trim (trim s) = trim s.
Proof.
  unfold trim.
  destruct (drop_while is_space s) as [|a A] eqn:EA; [reflexivity|].
  pose proof (drop_while_head _ _ _ _ EA) as Ha.
  destruct (drop_while is_space (rev (a :: A))) as [|b B] eqn:EB; [reflexivity|].
  pose proof (drop_while_head _ _ _ _ EB) as Hb.
  (* [b :: B] is what is left of [rev (a :: A)]: it ends with [a] *)
  assert (Hend : exists B', b :: B = B' ++ [a]).
  { clear - EB Ha. cbn [rev] in EB. revert EB.
    generalize (rev A). intros l. induction l as [|x l IH]; cbn.
    - rewrite Ha. intros [= <- <-]. by exists [].
    - destruct (is_space x); [exact IH|]. intros [= <- <-]. by exists (x :: l). }
  destruct Hend as [B' HB']. rewrite HB', rev_app_distr. cbn [rev app].
  rewrite (drop_while_id _ _ _ Ha). cbn [rev]. rewrite rev_involutive.
  rewrite <- HB', (drop_while_id _ _ _ Hb), HB', rev_app_distr. reflexivity.
Qed.

Lemma exec_label_number re labels details g :
  (forall s, match_at re s = at_labels labels s) ->
  exec re details = Some g ->
  exists n, parseInt g = to_number n /\ 0 <= n.
Proof.
  intros Hre H. rewrite (exec_find_first re labels Hre) in H.
  apply find_first_capture in H as [Hne Hd].
  exists (digits_value g). split; [by apply parseInt_digits|].
  apply digits_value_nonneg.
Qed.

(** Every suggestion the extractor emits, whatever the text: its name is
    not empty, holds no asterisk and has no white space at either end
    (trimming it changes nothing), and its sets, reps and weight are the
    Number values of integers that are not negative: never NaN, never
    negative, each an integer or, from a run of digits that writes 2^1024
    or more, the positive infinity. *)
Theorem parseExercisesFromMessage_well_formed content e :
  e ∈ parseExercisesFromMessage content ->
  AiChat.exercise e <> [] /\
  star_free (AiChat.exercise e) /\
  trim (AiChat.exercise e) = AiChat.exercise e /\
  (exists s r w,
     0 <= s /\ 0 <= r /\ 0 <= w /\
     AiChat.sets e = to_number s /\ AiChat.reps e = to_number r /\
     AiChat.weight e = to_number w) /\
  whole_or_infinite (AiChat.sets e) /\
  whole_or_infinite (AiChat.reps e) /\
  whole_or_infinite (AiChat.weight e).
Proof.
  rewrite parseExercisesFromMessage_extract. unfold extract_suggestions.
  intros He. apply list_elem_of_omap in He as (b & Hb & He).
  pose proof (names_ok_split content) as Hok. unfold names_ok in Hok.
  rewrite Forall_forall in Hok. destruct (Hok b Hb) as [_ Hstar].
  apply suggestion_Some in He as (Hname & s & r & w & Hs & Hr & Hw & ->).
  cbn [AiChat.exercise AiChat.sets AiChat.reps AiChat.weight].
  split; [assumption|]. split; [by apply trim_Forall|].
  split; [apply trim_trim|].
  destruct (exec_label_number _ _ _ _ match_at_SETS Hs) as (ns & -> & ?).
  destruct (exec_label_number _ _ _ _ match_at_REPS Hr) as (nr & -> & ?).
  destruct (exec_label_number _ _ _ _ match_at_WEIGHT_labels Hw) as (nw & -> & ?).
  split; [by exists ns, nr, nw|].
  unfold whole_or_infinite. auto using to_number_nonneg.
Qed.

Lemma parseExercisesFromMessage_well_formed_witness :
  (squat ∈ parseExercisesFromMessage squat_text) /\
  trim (AiChat.exercise squat) = AiChat.exercise squat.
Proof.
  assert (H : squat ∈ parseExercisesFromMessage squat_text).
  { change (parseExercisesFromMessage squat_text) with [squat]. left. }
  split; [exact H|].
  exact (proj1 (proj2 (proj2
           (parseExercisesFromMessage_well_formed squat_text squat H)))).
Defined.

Lemma match_at_BOLD_plain s : star_free s -> match_at BOLD s = None.
Proof.
  intros Hs. destruct (match_at BOLD s) as [[g rest]|] eqn:E; [|reflexivity].
  apply match_at_BOLD in E as (-> & _). cbn in Hs.
  apply Forall_cons in Hs as [H _]. done.
Qed.

Lemma split_from_plain s : forall acc,
  star_free s -> split_from BOLD s 0 acc = [rev acc ++ s].
Proof.
  induction s as [|c s IH]; intros acc Hs.
  - cbn. by rewrite app_nil_r.
  - cbn [split_from]. rewrite (match_at_BOLD_plain _ Hs).
    apply Forall_cons in Hs as [_ Hs]. rewrite (IH _ Hs). cbn.
    by rewrite <- app_assoc.
Qed.

(** A text without an asterisk, the empty text included, is one plain
    segment, and the extractor emits nothing for it. *)
Theorem parseExercisesFromMessage_plain content :
  star_free content ->
  split BOLD content = [content] /\ parseExercisesFromMessage content = [].
Proof.
  intros Hs.
  assert (H : split BOLD content = [content]).
  { destruct content as [|c s]; [reflexivity|].
    unfold split. by rewrite split_from_plain. }
  split; [exact H|]. unfold parseExercisesFromMessage. by rewrite H.
Qed.

Lemma parseExercisesFromMessage_plain_witness :
  star_free plain_text /\ parseExercisesFromMessage plain_text = [].
Proof.
  assert (H : star_free plain_text).
  { unfold star_free, plain_text. apply Forall_forall. intros c Hc.
    apply list_elem_of_In in Hc. vm_compute in Hc.
    repeat (destruct Hc as [<-|Hc]; [discriminate|]). destruct Hc. }
  split; [exact H|]. exact (proj2 (parseExercisesFromMessage_plain plain_text H)).
Defined.

(** ** Sending a message: what every outcome has in common *)

Lemma drop_while_blank s : blank s -> drop_while is_space s = [].
Proof.
  induction 1 as [|c s Hc _ IH]; [reflexivity|]. cbn. by rewrite Hc.
Qed.

Lemma trim_blank s : blank s -> trim s = [].
Proof. intros H. unfold trim. by rewrite (drop_while_blank s H). Qed.

(** Nothing is sent, and the state stays as it is, when the input is
    empty or white space only, or while an answer is still awaited,
    whatever the input then is. *)
Theorem handleSubmit_ignored now1 now2 response st :
  blank (input st) \/ isLoading st = true ->
  handleSubmit now1 now2 response st = st.
Proof.
  intros [H|H]; unfold handleSubmit.
  - by rewrite (trim_blank _ H).
  - rewrite H. by rewrite orb_true_r.
Qed.

Lemma handleSubmit_ignored_witness :
  handleSubmit 1000 1000 FetchRejected
    {| messages := []; input := js "  "; isLoading := false |} =
  {| messages := []; input := js "  "; isLoading := false |}.
Proof.
  apply handleSubmit_ignored. left. cbn [input].
  repeat constructor.
Defined.

(** whatever is read, the loop only rewrites the content of the turns
    with the assistant's id *)
Lemma read_loop_update aid reads : forall msgs,
  exists f, (read_loop aid reads msgs).1 = update_content aid f msgs.
Proof.
  induction reads as [|r reads IH]; intros msgs.
  - exists (fun c => c ++ []). cbn. by rewrite update_content_id.
  - destruct r as [value| |].
    + cbn [read_loop]. destruct (IH (update_content aid (fun c => c ++ decode value) msgs))
        as [f Hf]. rewrite Hf, update_content_compose. by eexists.
    + exists (fun c => c ++ []). cbn. by rewrite update_content_id.
    + exists (fun c => c ++ []). cbn. by rewrite update_content_id.
Qed.

Lemma read_loop_rejected aid values rest msgs :
  read_loop aid (map ReadValue values ++ ReadRejected :: rest) msgs =
  (update_content aid (fun c => c ++ concat (map decode values)) msgs, Failed).
Proof.
  revert msgs. induction values as [|v values IH]; intros msgs.
  - cbn. by rewrite update_content_id.
  - cbn [map app read_loop concat]. rewrite IH, update_content_compose.
    f_equal. apply update_content_ext. intros c. by rewrite app_assoc.
Qed.

Section Submit.

Variables (now1 now2 : Z) (st : ChatState).
Hypothesis typed : truthy (trim (input st)) = true.
Hypothesis idle : isLoading st = false.
Hypothesis clock : (now1 <= now2)%Z.
Hypothesis unused :
  forall m, m ∈ messages st -> AiChat.id m <> pretty (now2 + 1)%Z.

Local Abbreviation turns := (turns_after now1 now2 st).

Lemma update_turns f c :
  update_content (pretty (now2 + 1)%Z) f (turns c) = turns (f c).
Proof.
  unfold turns_after, update_content at 1. rewrite map_app.
  fold (update_content (pretty (now2 + 1)%Z) f (messages st)).
  rewrite update_content_other by exact unused. f_equal.
  cbn [map AiChat.id AiChat.role AiChat.content].
  rewrite String.eqb_refl.
  assert (Hne : String.eqb (pretty now1) (pretty (now2 + 1)%Z) = false).
  { apply String.eqb_neq. intros H. apply (inj pretty) in H. lia. }
  by rewrite Hne.
Qed.

Lemma handleSubmit_turns response :
  exists c loading,
    handleSubmit now1 now2 response st =
    {| messages := turns c; input := []; isLoading := loading |} /\
    (failed_response response -> c = APOLOGY /\ loading = false).
Proof.
  unfold handleSubmit. rewrite typed, idle. cbn [negb orb].
  rewrite <- app_assoc. cbn [app]. fold (turns []).
  destruct response as [|[|] [reads|]].
  - exists APOLOGY, false. rewrite update_turns. done.
  - destruct (read_loop_update (pretty (now2 + 1)%Z) reads (turns [])) as [f Hf].
    destruct (read_loop _ reads (turns [])) as [msgs e] eqn:E.
    cbn [fst] in Hf. subst msgs.
    destruct e.
    + exists (f []), false. rewrite update_turns. split; [done|].
      intros H. inversion H as [| |values rest Hr]; subst reads.
      rewrite read_loop_rejected in E. discriminate.
    + exists APOLOGY, false. rewrite !update_turns. done.
    + exists (f []), true. rewrite update_turns. split; [done|].
      intros H. inversion H as [| |values rest Hr]; subst reads.
      rewrite read_loop_rejected in E. discriminate.
  - exists [], false. split; [done|]. intros H. inversion H.
  - exists APOLOGY, false. rewrite update_turns. done.
  - exists APOLOGY, false. rewrite update_turns. done.
Qed.

End Submit.

(** A message that is sent adds exactly two turns after the ones there
    were, whatever [fetch] and the reader deliver: the user's, with the
    trimmed input, and the assistant's; the turns before are not touched,
    and the input is cleared. *)
Theorem handleSubmit_appends_two_turns now1 now2 response st :
  truthy (trim (input st)) = true ->
  isLoading st = false ->
  (now1 <= now2)%Z ->
  (forall m, m ∈ messages st -> AiChat.id m <> pretty (now2 + 1)%Z) ->
  exists c,
    messages (handleSubmit now1 now2 response st) =
    messages st ++
    [{| AiChat.id := pretty now1; AiChat.role := user;
        AiChat.content := trim (input st) |};
     {| AiChat.id := pretty (now2 + 1)%Z; AiChat.role := assistant;
        AiChat.content := c |}] /\
    input (handleSubmit now1 now2 response st) = [].
Proof.
  intros Hin Hload Hnow Hids.
  destruct (handleSubmit_turns now1 now2 st Hin Hload Hnow Hids response)
    as (c & loading & -> & _).
  by exists c.
Qed.

Lemma handleSubmit_appends_two_turns_witness :
  exists c,
    messages (handleSubmit 1000 1000 (FetchResponse true None) typed_hi) =
    messages typed_hi ++
    [{| AiChat.id := pretty 1000%Z; AiChat.role := user;
        AiChat.content := trim (input typed_hi) |};
     {| AiChat.id := pretty 1001%Z; AiChat.role := assistant;
        AiChat.content := c |}] /\
    input (handleSubmit 1000 1000 (FetchResponse true None) typed_hi) = [].
Proof.
  apply (handleSubmit_appends_two_turns 1000 1000 (FetchResponse true None) typed_hi).
  - reflexivity.
  - reflexivity.
  - lia.
  - intros m Hm. cbn in Hm. by apply elem_of_nil in Hm.
Defined.

(** When [fetch] rejects, the response is not ok, or a read rejects
    after any number of chunks, the assistant's turn holds the apology and
    nothing of what was streamed before, the other turns are as in any
    other outcome, and the component is no longer loading. *)
Theorem handleSubmit_failure now1 now2 response st :
  truthy (trim (input st)) = true ->
  isLoading st = false ->
  (now1 <= now2)%Z ->
  (forall m, m ∈ messages st -> AiChat.id m <> pretty (now2 + 1)%Z) ->
  failed_response response ->
  handleSubmit now1 now2 response st =
  {| messages :=
       messages st ++
       [{| AiChat.id := pretty now1; AiChat.role := user;
           AiChat.content := trim (input st) |};
        {| AiChat.id := pretty (now2 + 1)%Z; AiChat.role := assistant;
           AiChat.content := APOLOGY |}];
     input := [];
     isLoading := false |}.
Proof.
  intros Hin Hload Hnow Hids Hfail.
  destruct (handleSubmit_turns now1 now2 st Hin Hload Hnow Hids response)
    as (c & loading & -> & H).
  by destruct (H Hfail) as [-> ->].
Qed.

Lemma handleSubmit_failure_witness :
  handleSubmit 1000 1000
    (FetchResponse true (Some [ReadValue (encode (js "Hel")); ReadRejected]))
    typed_hi =
  {| messages :=
       [{| AiChat.id := pretty 1000%Z; AiChat.role := user;
           AiChat.content := js "hi" |};
        {| AiChat.id := pretty 1001%Z; AiChat.role := assistant;
           AiChat.content := APOLOGY |}];
     input := [];
     isLoading := false |}.
Proof.
  apply (handleSubmit_failure 1000 1000
           (FetchResponse true
              (Some [ReadValue (encode (js "Hel")); ReadRejected])) typed_hi).
  - reflexivity.
  - reflexivity.
  - lia.
  - intros m Hm. cbn in Hm. by apply elem_of_nil in Hm.
  - exact (read_rejected [encode (js "Hel")] []).
Defined.

(** ** Quick add *)

Lemma button_label_saved name ex :
  button_label (Some name) ex = js "Saved!" <-> AiChat.exercise ex = name.
Proof.
  unfold button_label. destruct (decide _) as [H|H].
  - split; [|done]. intros _. by injection H.
  - split; [discriminate|]. intros <-. done.
Qed.

(** A suggestion whose three numbers are finite (the request to the
    store carries finite numbers as they are), when it is quick-added, is
    stored as one new row with the
    name and the three numbers of the suggestion and the fixed note; the
    gym visits are not touched and nothing is logged. The button of every
    suggestion of that name, whatever its numbers, then reads [Saved!],
    the others still offer to add; after the timer every button offers to
    add again. Adding the same suggestion a second time stores a second
    row. *)
Theorem handleQuickAdd_saves gen_id now e st :
  (forall m, m !! gen_id m = None) ->
  finite (AiChat.sets e) -> finite (AiChat.reps e) -> finite (AiChat.weight e) ->
  let st' := handleQuickAdd gen_id now e st in
  workouts (store st') !! gen_id (workouts (store st)) =
    Some {| Store.exercise := AiChat.exercise e; Store.sets := AiChat.sets e;
            Store.reps := AiChat.reps e; Store.weight := AiChat.weight e;
            Store.notes := Some ADDED_NOTE; created_at := now |} /\
  (forall i, i <> gen_id (workouts (store st)) ->
     workouts (store st') !! i = workouts (store st) !! i) /\
  size (workouts (store st')) = S (size (workouts (store st))) /\
  gym_visits (store st') = gym_visits (store st) /\
  logged st' = logged st /\
  (forall ex, button_label (savedExercise st') ex = js "Saved!" <->
              AiChat.exercise ex = AiChat.exercise e) /\
  (forall ex, button_label (savedExercise (clear_saved st')) ex =
              js "+ Add " ++ AiChat.exercise ex) /\
  size (workouts (store (handleQuickAdd gen_id now e st'))) =
    S (S (size (workouts (store st)))).
Proof.
  intros Hfresh _ _ _ st'.
  assert (Hw : workouts (store st') =
               <[gen_id (workouts (store st)) :=
                   {| Store.exercise := AiChat.exercise e;
                      Store.sets := AiChat.sets e; Store.reps := AiChat.reps e;
                      Store.weight := AiChat.weight e;
                      Store.notes := Some ADDED_NOTE; created_at := now |}]>
                 (workouts (store st))) by reflexivity.
  split; [rewrite Hw; apply lookup_insert_eq|].
  split; [intros i Hi; rewrite Hw; by apply lookup_insert_ne|].
  assert (Hsize : size (workouts (store st')) = S (size (workouts (store st)))).
  { rewrite Hw. apply map_size_insert_None, Hfresh. }
  split; [exact Hsize|].
  split; [reflexivity|]. split; [reflexivity|].
  split; [intros ex; apply button_label_saved|].
  split; [reflexivity|].
  rewrite <- Hsize.
  change (workouts (store (handleQuickAdd gen_id now e st')))
    with (<[gen_id (workouts (store st')) :=
              row_of {| Insert.exercise := AiChat.exercise e;
                        Insert.sets := AiChat.sets e;
                        Insert.reps := AiChat.reps e;
                        Insert.weight := AiChat.weight e;
                        Insert.notes := Some ADDED_NOTE |} now]>
            (workouts (store st'))).
  apply map_size_insert_None, Hfresh.
Qed.

Lemma handleQuickAdd_saves_witness :
  (forall m, m !! fresh_workout_id m = None) /\
  size (workouts (store
         (handleQuickAdd fresh_workout_id later squat
            (handleQuickAdd fresh_workout_id later squat logbook_chat)))) =
  S (S (size (workouts logbook))).
Proof.
  split; [exact fresh_workout_id_fresh|].
  exact (proj2 (proj2 (proj2 (proj2 (proj2 (proj2 (proj2
           (handleQuickAdd_saves fresh_workout_id later squat logbook_chat
              fresh_workout_id_fresh I I I)))))))).
Defined.

(* ===================================================================== *)
(** * More about the chat route *)
(* ===================================================================== *)

Lemma history_messages_array l :
  Forall (fun msg => msg <> JNull) l ->
  history_messages (Some (JArray l)) = Some (map forwarded l).
Proof.
  unfold history_messages. cbn [falsy].
  induction 1 as [|msg l Hmsg _ IH]; [reflexivity|].
  cbn [mapM map]. rewrite IH.
  destruct msg; done.
Qed.

Lemma history_messages_null l :
  JNull ∈ l -> history_messages (Some (JArray l)) = None.
Proof.
  unfold history_messages. cbn [falsy].
  induction l as [|msg l IH]; intros H; [by apply elem_of_nil in H|].
  apply elem_of_cons in H as [<-|H]; [reflexivity|].
  cbn [mapM]. rewrite (IH H). by destruct msg.
Qed.

Lemma history_messages_turns msgs :
  history_messages (Some (JArray (map message_json msgs))) =
  Some (map turn_message msgs).
Proof.
  rewrite history_messages_array.
  - rewrite map_map. f_equal.
  - apply Forall_forall. intros j Hj. apply list_elem_of_In in Hj.
    apply in_map_iff in Hj as (m & <- & _). discriminate.
Qed.

Section HandlerOutcomes.

Variable SYSTEM_PROMPT : jsstring.
Variables (tz : Zone) (now : Z) (db : DB) (groq : list ApiMessage -> completion).

Lemma POST_accepted req s rows previous :
  req <> JNull ->
  get (js "message") req = Some (JString s) -> s <> [] ->
  getRecentWorkouts tz now (Some 14) db = Returned rows ->
  history_messages (get (js "history") req) = Some previous ->
  POST SYSTEM_PROMPT tz now db groq (Some req) =
  after_model groq (model_messages SYSTEM_PROMPT tz rows previous s).
Proof.
  intros Hreq Hm Hs Hrows Hprev. unfold POST, after_model, model_messages.
  rewrite Hm, Hrows, Hprev.
  assert (Hg : falsy (Some (JString s)) || not_string (Some (JString s)) = false)
    by (destruct s; done).
  rewrite Hg. destruct req; try done; by destruct (groq _).
Qed.

Lemma POST_bad_history req s rows :
  req <> JNull ->
  get (js "message") req = Some (JString s) -> s <> [] ->
  getRecentWorkouts tz now (Some 14) db = Returned rows ->
  history_messages (get (js "history") req) = None ->
  POST SYSTEM_PROMPT tz now db groq (Some req) =
  ({| status := 500; body := JsonBody "Failed to generate response" |},
   [GetRecentWorkouts 14; ConsoleError]).
Proof.
  intros Hreq Hm Hs Hrows Hprev. unfold POST.
  rewrite Hm, Hrows, Hprev.
  assert (Hg : falsy (Some (JString s)) || not_string (Some (JString s)) = false)
    by (destruct s; done).
  rewrite Hg. by destruct req.
Qed.

End HandlerOutcomes.

(** The entries of the history reach the model as they are, in order,
    between the system message and the user's message: of each entry its
    [role] and its [content], whatever they are, with nothing checked and
    nothing else kept. A history that is absent or falsy counts as empty.
    A history with a [null] entry makes the handler answer 500 after
    reading the store, without calling the model. *)
Theorem POST_forwards_history SYSTEM_PROMPT tz now db groq req s rows :
  req <> JNull ->
  get (js "message") req = Some (JString s) -> s <> [] ->
  getRecentWorkouts tz now (Some 14) db = Returned rows ->
  (falsy (get (js "history") req) = true ->
   POST SYSTEM_PROMPT tz now db groq (Some req) =
   after_model groq (model_messages SYSTEM_PROMPT tz rows [] s)) /\
  (forall l,
     get (js "history") req = Some (JArray l) ->
     Forall (fun msg => msg <> JNull) l ->
     POST SYSTEM_PROMPT tz now db groq (Some req) =
     after_model groq (model_messages SYSTEM_PROMPT tz rows (map forwarded l) s)) /\
  (forall l,
     get (js "history") req = Some (JArray l) ->
     JNull ∈ l ->
     POST SYSTEM_PROMPT tz now db groq (Some req) =
     ({| status := 500; body := JsonBody "Failed to generate response" |},
      [GetRecentWorkouts 14; ConsoleError])).
Proof.
  intros Hreq Hm Hs Hrows. split; [|split].
  - intros Hf. apply POST_accepted; try assumption.
    unfold history_messages. by rewrite Hf.
  - intros l Hl Hnn. apply POST_accepted; try assumption.
    rewrite Hl. by apply history_messages_array.
  - intros l Hl Hnull. apply (POST_bad_history _ _ _ _ _ _ s rows); try assumption.
    rewrite Hl. by apply history_messages_null.
Qed.

Lemma POST_forwards_history_witness :
  POST [] 0 wednesday logbook silent_model (Some hi_request) =
  after_model silent_model
    (model_messages [] 0
       (merge_sort newer_first (map_to_list (workouts logbook))) [] (js "hi")).
Proof.
  refine (proj1 (POST_forwards_history [] 0 wednesday logbook silent_model
                   hi_request (js "hi")
                   (merge_sort newer_first (map_to_list (workouts logbook)))
                   _ _ _ _) _).
  - discriminate.
  - reflexivity.
  - discriminate.
  - vm_compute. reflexivity.
  - reflexivity.
Defined.

(** The request the chat component sends for a message that is not
    blank is never answered 400: once the store is read, the model is
    called with the system message, then one message for each turn there
    was before, with the role and the content of the turn and without
    its id, then the trimmed input as the user's message, which the
    history does not hold. *)
Theorem chat_request_reaches_model SYSTEM_PROMPT tz now db groq st rows :
  truthy (trim (input st)) = true ->
  getRecentWorkouts tz now (Some 14) db = Returned rows ->
  POST SYSTEM_PROMPT tz now db groq (Some (chat_request st)) =
  after_model groq
    (model_messages SYSTEM_PROMPT tz rows (map turn_message (messages st))
       (trim (input st))).
Proof.
  intros Hin Hrows.
  apply POST_accepted; try assumption.
  - discriminate.
  - reflexivity.
  - intros H. by rewrite H in Hin.
  - change (get (js "history") (chat_request st))
      with (Some (JArray (map message_json (messages st)))).
    apply history_messages_turns.
Qed.

Lemma chat_request_reaches_model_witness :
  POST [] 0 wednesday logbook silent_model (Some (chat_request second_question)) =
  after_model silent_model
    (model_messages [] 0
       (merge_sort newer_first (map_to_list (workouts logbook)))
       [{| ChatRoute.role := Some (JString (js "user"));
           ChatRoute.content := Some (JString (js "hi")) |};
        {| ChatRoute.role := Some (JString (js "assistant"));
           ChatRoute.content := Some (JString (js "Hello")) |}]
       (js "legs today?")).
Proof.
  apply (chat_request_reaches_model [] 0 wednesday logbook silent_model
           second_question).
  - reflexivity.
  - vm_compute. reflexivity.
Defined.

(* ===================================================================== *)
(** * The text codec *)
(* ===================================================================== *)

Section Codec.

Local Open Scope N_scope.

Ltac nlia := zify; Z.to_euclidean_division_equations; lia.

Lemma feed_lead2 b :
  194 <= b <= 223 -> feed initial_state b = (lead (b mod 32) 1 128 191, []).
Proof.
  intros H. unfold feed, first_byte. cbn [bytes_needed initial_state N.eqb].
  destruct (N.leb_spec b 127); [lia|].
  destruct (N.leb_spec 194 b); [|lia]. destruct (N.leb_spec b 223); [|lia].
  reflexivity.
Qed.

Lemma feed_lead3 b :
  224 <= b <= 239 ->
  feed initial_state b =
  (lead (b mod 16) 2 (if b =? 224 then 160 else 128)
        (if b =? 237 then 159 else 191), []).
Proof.
  intros H. unfold feed, first_byte. cbn [bytes_needed initial_state N.eqb].
  destruct (N.leb_spec b 127); [lia|].
  destruct (N.leb_spec 194 b); [|lia]. destruct (N.leb_spec b 223); [lia|].
  destruct (N.leb_spec 224 b); [|lia]. destruct (N.leb_spec b 239); [|lia].
  reflexivity.
Qed.

Lemma feed_lead4 b :
  240 <= b <= 244 ->
  feed initial_state b =
  (lead (b mod 8) 3 (if b =? 240 then 144 else 128)
        (if b =? 244 then 143 else 191), []).
Proof.
  intros H. unfold feed, first_byte. cbn [bytes_needed initial_state N.eqb].
  destruct (N.leb_spec b 127); [lia|].
  destruct (N.leb_spec 194 b); [|lia]. destruct (N.leb_spec b 223); [lia|].
  destruct (N.leb_spec 224 b); [|lia]. destruct (N.leb_spec b 239); [lia|].
  destruct (N.leb_spec 240 b); [|lia]. destruct (N.leb_spec b 244); [|lia].
  reflexivity.
Qed.

(** a continuation byte in the bounds of an open sequence: the last one *)
Lemma feed_last cp needed seen lo hi b :
  seen + 1 = needed -> lo <= b <= hi ->
  feed {| code_point := cp; bytes_needed := needed; bytes_seen := seen;
          lower_boundary := lo; upper_boundary := hi |} b =
  (initial_state, [cp * 64 + b mod 64]).
Proof.
  intros Hn Hb. unfold feed.
  cbn [bytes_needed lower_boundary upper_boundary code_point bytes_seen].
  destruct (N.eqb_spec needed 0); [lia|].
  destruct (N.leb_spec lo b); [|lia]. destruct (N.leb_spec b hi); [|lia].
  cbn [andb]. destruct (N.eqb_spec (seen + 1) needed); [reflexivity | lia].
Qed.

(** and one before the last *)
Lemma feed_middle seen' cp needed seen lo hi b :
  seen' = seen + 1 -> seen' < needed -> lo <= b <= hi ->
  feed {| code_point := cp; bytes_needed := needed; bytes_seen := seen;
          lower_boundary := lo; upper_boundary := hi |} b =
  ({| code_point := cp * 64 + b mod 64; bytes_needed := needed;
      bytes_seen := seen'; lower_boundary := 128; upper_boundary := 191 |}, []).
Proof.
  intros -> Hn Hb. unfold feed.
  cbn [bytes_needed lower_boundary upper_boundary code_point bytes_seen].
  destruct (N.eqb_spec needed 0); [lia|].
  destruct (N.leb_spec lo b); [|lia]. destruct (N.leb_spec b hi); [|lia].
  cbn [andb]. destruct (N.eqb_spec (seen + 1) needed); [lia | reflexivity].
Qed.

(** a continuation byte while no sequence is open *)
Lemma feed_stray b :
  128 <= b <= 191 -> feed initial_state b = (initial_state, [65533]).
Proof.
  intros H. unfold feed, first_byte. cbn [bytes_needed initial_state N.eqb].
  destruct (N.leb_spec b 127); [lia|].
  destruct (N.leb_spec 194 b); [lia|].
  destruct (N.leb_spec 224 b); [lia|].
  destruct (N.leb_spec 240 b); [lia|].
  reflexivity.
Qed.

Lemma decode_from_cons st b bs :
  decode_from st (b :: bs) = (feed st b).2 ++ decode_from (feed st b).1 bs.
Proof. cbn [decode_from]. by destruct (feed st b). Qed.

Lemma decode_from_code_point cp rest :
  scalar_value cp ->
  decode_from initial_state (encode_code_point cp ++ rest) =
  cp :: decode_from initial_state rest.
Proof.
  intros [Hs Hmax]. unfold encode_code_point.
  assert (E64 : forall x, (128 + x mod 64) mod 64 = x mod 64) by (intros; nlia).
  destruct (N.ltb_spec cp 128) as [H1|H1].
  { cbn [app]. rewrite decode_from_cons. unfold feed, first_byte.
    cbn [bytes_needed initial_state N.eqb].
    destruct (N.leb_spec cp 127); [reflexivity | lia]. }
  destruct (N.ltb_spec cp 2048) as [H2|H2].
  { cbn [app]. rewrite decode_from_cons, feed_lead2 by nlia.
    cbn [fst snd app]. unfold lead.
    rewrite decode_from_cons, feed_last by (try reflexivity; nlia).
    cbn [fst snd app]. f_equal.
    assert (E32 : (192 + cp / 64) mod 32 = cp / 64) by nlia.
    rewrite E32, E64. nlia. }
  destruct (N.ltb_spec cp 65536) as [H3|H3].
  { cbn [app]. rewrite decode_from_cons, feed_lead3 by nlia.
    cbn [fst snd app]. unfold lead.
    rewrite decode_from_cons, (feed_middle 1);
      [|reflexivity|lia|destruct (N.eqb_spec (224 + cp / 4096) 224);
                        destruct (N.eqb_spec (224 + cp / 4096) 237); nlia].
    cbn [fst snd app].
    rewrite decode_from_cons, feed_last by (try reflexivity; nlia).
    cbn [fst snd app]. f_equal.
    assert (E16 : (224 + cp / 4096) mod 16 = cp / 4096) by nlia.
    rewrite E16, !E64. nlia. }
  cbn [app]. rewrite decode_from_cons, feed_lead4 by nlia.
  cbn [fst snd app]. unfold lead.
  rewrite decode_from_cons, (feed_middle 1);
    [|reflexivity|lia|destruct (N.eqb_spec (240 + cp / 262144) 240);
                      destruct (N.eqb_spec (240 + cp / 262144) 244); nlia].
  cbn [fst snd app].
  rewrite decode_from_cons, (feed_middle 2) by (try reflexivity; nlia).
  cbn [fst snd app].
  rewrite decode_from_cons, feed_last by (try reflexivity; nlia).
  cbn [fst snd app]. f_equal.
  assert (E8 : (240 + cp / 262144) mod 8 = cp / 262144) by nlia.
  rewrite E8, !E64. nlia.
Qed.

Lemma decode_from_code_points cps :
  Forall scalar_value cps ->
  decode_from initial_state (concat (map encode_code_point cps)) = cps.
Proof.
  induction 1 as [|cp cps Hcp _ IH]; [reflexivity|].
  cbn [map concat]. by rewrite decode_from_code_point, IH.
Qed.

Lemma encode_code_units cp s :
  scalar_value cp ->
  encode (code_units cp ++ s) = encode_code_point cp ++ encode s.
Proof.
  intros [Hs Hmax]. unfold code_units.
  destruct (N.ltb_spec cp 65536) as [H|H].
  - cbn [app encode]. unfold is_high_surrogate, is_low_surrogate.
    destruct (N.leb_spec 55296 cp), (N.leb_spec cp 56319),
      (N.leb_spec 56320 cp), (N.leb_spec cp 57343); cbn [andb];
      first [reflexivity | lia].
  - cbn [app encode]. unfold is_high_surrogate, is_low_surrogate.
    destruct (N.leb_spec 55296 (55296 + (cp - 65536) / 1024)); [|nlia].
    destruct (N.leb_spec (55296 + (cp - 65536) / 1024) 56319); [|nlia].
    destruct (N.leb_spec 56320 (56320 + (cp - 65536) mod 1024)); [|nlia].
    destruct (N.leb_spec (56320 + (cp - 65536) mod 1024) 57343); [|nlia].
    cbn [andb]. do 2 f_equal. nlia.
Qed.

Lemma encode_utf16 cps :
  Forall scalar_value cps ->
  encode (utf16 cps) = concat (map encode_code_point cps).
Proof.
  unfold utf16. induction 1 as [|cp cps Hcp _ IH]; [reflexivity|].
  cbn [map concat]. by rewrite encode_code_units, IH.
Qed.

Lemma decode_encode_utf16 cps :
  Forall scalar_value cps ->
  decode (encode (utf16 cps)) =
  utf16 (match cps with 65279 :: t => t | _ => cps end).
Proof.
  intros H. unfold decode. by rewrite (encode_utf16 cps H), (decode_from_code_points cps H).
Qed.

Lemma decode_encode_text s : well_formed_text s -> decode (encode s) = s.
Proof.
  intros (cps & Hcps & Hbom & ->). rewrite (decode_encode_utf16 cps Hcps).
  destruct cps as [|cp cps]; [reflexivity|].
  destruct (N.eq_dec cp 65279) as [->|Hne]; [done|].
  destruct cp as [|p]; [reflexivity|].
  repeat (destruct p as [p|p|]; try reflexivity; try (exfalso; lia)).
Qed.

(** Decoding undoes encoding on well-formed text: the string of any
    sequence of scalar values, in one to four bytes each, comes back code
    unit for code unit, except that a byte order mark at the very start is
    dropped by the decoder. *)
Theorem decode_encode cps :
  Forall scalar_value cps ->
  (head cps <> Some 65279 -> decode (encode (utf16 cps)) = utf16 cps) /\
  (forall t, cps = 65279 :: t -> decode (encode (utf16 cps)) = utf16 t).
Proof.
  intros H. split.
  - intros Hbom. apply decode_encode_text. by exists cps.
  - intros t ->. by rewrite (decode_encode_utf16 _ H).
Qed.

Lemma decode_encode_witness :
  decode (encode (utf16 [67; 233; 8364; 128170])) = utf16 [67; 233; 8364; 128170].
Proof.
  refine (proj1 (decode_encode [67; 233; 8364; 128170] _) _).
  - repeat constructor; lia.
  - discriminate.
Defined.

(** ** A character cut by a chunk boundary *)

Lemma decode_from_stray bs :
  Forall (fun b => 128 <= b <= 191) bs ->
  decode_from initial_state bs = replicate (length bs) 65533.
Proof.
  induction 1 as [|b bs Hb _ IH]; [reflexivity|].
  rewrite decode_from_cons, feed_stray by exact Hb.
  cbn [fst snd app length replicate]. by rewrite IH.
Qed.

Lemma utf16_replacement n : utf16 (replicate n 65533) = replicate n 65533.
Proof. induction n as [|n IH]; [reflexivity|]. cbn [replicate]. by rewrite <- IH at 2. Qed.

Lemma decode_stray bs :
  Forall (fun b => 128 <= b <= 191) bs -> decode bs = replicate (length bs) 65533.
Proof.
  intros H. unfold decode. rewrite (decode_from_stray bs H).
  destruct bs as [|b bs]; [reflexivity|]. apply (utf16_replacement (S (length bs))).
Qed.

Lemma continuation_byte x : 128 <= 128 + x mod 64 <= 191.
Proof. nlia. Qed.

(** the bytes of a sequence that is still open at the end of the input *)
Lemma decode_open_sequence cp k :
  scalar_value cp -> 128 <= cp ->
  (0 < k < length (encode_code_point cp))%nat ->
  decode (take k (encode_code_point cp)) = [65533].
Proof.
  intros [Hs Hmax] Hcp. unfold encode_code_point, decode.
  destruct (N.ltb_spec cp 128) as [H1|H1]; [lia|].
  destruct (N.ltb_spec cp 2048) as [H2|H2].
  { intros Hk. cbn [length] in Hk.
    destruct k as [|[|k]]; [lia| |lia]. cbn [take firstn].
    rewrite decode_from_cons, feed_lead2 by nlia. reflexivity. }
  destruct (N.ltb_spec cp 65536) as [H3|H3].
  { intros Hk. cbn [length] in Hk.
    destruct k as [|[|[|k]]]; [lia| | |lia]; cbn [take firstn].
    - rewrite decode_from_cons, feed_lead3 by nlia. reflexivity.
    - rewrite decode_from_cons, feed_lead3 by nlia.
      cbn [fst snd app]. unfold lead.
      rewrite decode_from_cons, (feed_middle 1);
        [|reflexivity|lia|destruct (N.eqb_spec (224 + cp / 4096) 224);
                          destruct (N.eqb_spec (224 + cp / 4096) 237); nlia].
      reflexivity. }
  intros Hk. cbn [length] in Hk.
  destruct k as [|[|[|[|k]]]]; [lia| | | |lia]; cbn [take firstn].
  - rewrite decode_from_cons, feed_lead4 by nlia. reflexivity.
  - rewrite decode_from_cons, feed_lead4 by nlia.
    cbn [fst snd app]. unfold lead.
    rewrite decode_from_cons, (feed_middle 1);
      [|reflexivity|lia|destruct (N.eqb_spec (240 + cp / 262144) 240);
                        destruct (N.eqb_spec (240 + cp / 262144) 244); nlia].
    reflexivity.
  - rewrite decode_from_cons, feed_lead4 by nlia.
    cbn [fst snd app]. unfold lead.
    rewrite decode_from_cons, (feed_middle 1);
      [|reflexivity|lia|destruct (N.eqb_spec (240 + cp / 262144) 240);
                        destruct (N.eqb_spec (240 + cp / 262144) 244); nlia].
    cbn [fst snd app].
    rewrite decode_from_cons, (feed_middle 2) by (try reflexivity; nlia).
    reflexivity.
Qed.

Lemma continuation_bytes cp k :
  (0 < k)%nat ->
  Forall (fun b => 128 <= b <= 191) (drop k (encode_code_point cp)).
Proof.
  intros Hk. destruct k as [|k]; [lia|]. unfold encode_code_point.
  destruct (cp <? 128); [by destruct k|].
  destruct (cp <? 2048); [|destruct (cp <? 65536)]; cbn [drop skipn];
    apply Forall_drop; repeat constructor; apply continuation_byte.
Qed.

(** The reader decodes every chunk on its own: when the bytes of one
    character beyond ASCII arrive cut in two, in whatever place, neither
    part decodes to the character; the first part gives one U+FFFD and
    every byte of the second part another. *)
Theorem decode_cut_character cp k :
  scalar_value cp -> 128 <= cp ->
  (0 < k < length (encode_code_point cp))%nat ->
  (decode (take k (encode_code_point cp)) ++ decode (drop k (encode_code_point cp)) =
   replicate (S (length (encode_code_point cp) - k)%nat) 65533) /\
  ((decode (take k (encode_code_point cp)) ++ decode (drop k (encode_code_point cp))) <>
   decode (encode_code_point cp)).
Proof.
  intros Hs Hcp Hk.
  assert (E : decode (take k (encode_code_point cp)) ++
              decode (drop k (encode_code_point cp)) =
              replicate (S (length (encode_code_point cp) - k)%nat) 65533).
  { rewrite (decode_open_sequence cp k Hs Hcp Hk).
    rewrite decode_stray by (apply continuation_bytes; lia).
    by rewrite length_drop. }
  split; [exact E|]. rewrite E.
  assert (Hwhole : decode (encode_code_point cp) =
                   utf16 (match [cp] with 65279 :: t => t | _ => [cp] end)).
  { unfold decode. rewrite <- (app_nil_r (encode_code_point cp)).
    by rewrite (decode_from_code_point cp [] Hs). }
  rewrite Hwhole. destruct (N.eq_dec cp 65279) as [->|Hne]; [discriminate|].
  assert (Hm : match [cp] with 65279 :: t => t | _ => [cp] end = [cp]).
  { destruct cp as [|p]; [reflexivity|].
    repeat (destruct p as [p|p|]; try reflexivity; try (exfalso; lia)). }
  rewrite Hm. unfold utf16, code_units. cbn [map concat app].
  destruct Hs as [Hs Hmax].
  destruct (N.ltb_spec cp 65536) as [H|H].
  - intros Hc. apply (f_equal length) in Hc.
    rewrite length_replicate in Hc. cbn [length app] in Hc. lia.
  - cbn [replicate]. intros [= Hc _]. nlia.
Qed.

Lemma decode_cut_character_witness :
  decode (take 1 (encode_code_point 233)) ++ decode (drop 1 (encode_code_point 233)) =
  [65533; 65533].
Proof.
  refine (proj1 (decode_cut_character 233 1 _ _ _)).
  - split; [left|]; lia.
  - lia.
  - cbn. lia.
Defined.

End Codec.

(** ** The relay of text beyond ASCII *)





